(** * Word-search game (src/app/page.tsx): grid generator, selection
      resolver and session state machine, embedded in Rocq.

    Conventions of the embedding.
    - Grid indices and cell coordinates are JavaScript numbers holding
      integers; they are modelled in [Z].  The grid size is a [nat].
    - A grid cell is a JavaScript string: [""] for a cell that is still
      empty, a one-character string otherwise.
    - [Math.random()] is an oracle [random : nat -> Q]; the n-th call of a
      run returns [random n], and every function that draws threads the
      index of the next draw.  The product [Math.random() * k] is taken
      exactly (rounding of doubles is not modelled).
    - A [TypeError] (reading a property of [undefined]) is the [None] of the
      [option] monad.
    - Words are strings of 8-bit characters; [toUpperCase] is the ASCII
      case mapping.
    - The component is a state machine: an event (a click, a pointer
      event, a tick of the interval, a timeout) is handled to completion
      and followed by the effects of the render it causes.  Time is not
      modelled: the interval may tick whenever it is running and a pending
      timeout may run at any later moment.  The numbers compared with
      [Math.random()] (0.3, 0.55, 0.8, 0.6) are the rationals of their
      decimal notation. *)

From Stdlib Require Import ZArith QArith Qround Lia Ascii String.
From stdpp Require Import base option list.

Local Open Scope string_scope.
Local Open Scope list_scope.
Local Open Scope Z_scope.

(** ** Data model *)

Abbreviation Cell := (Z * Z)%type (only parsing).

(** [foundBy: null | "player" | "ai"] *)
Inductive Finder : Type := player | ai.

Record WordData : Type := mkWordData {
  word : string;
  foundBy : option Finder;
  positions : list Cell
}.

(** [string[][]]; the rows of a grid are distinct arrays (each is made by
    its own call of [Array(size).fill("")]). *)
Abbreviation Grid := (list (list string)) (only parsing).

#[global] Instance Finder_eq_dec : EqDecision Finder.
Proof. solve_decision. Defined.

#[global] Instance string_eq_dec : EqDecision string := String.string_dec.

(** Directions for placing words: [rowDelta, colDelta]. *)
Definition DIRECTIONS : list (Z * Z) :=
  [ (0, 1); (1, 0); (0, -1); (-1, 0); (1, 1); (-1, -1); (1, -1); (-1, 1) ].

(** [arr[k]] for an integer [k]: [None] stands for [undefined]. *)
Definition js_index {A : Type} (l : list A) (k : Z) : option A :=
  if k <? 0 then None else l !! Z.to_nat k.

(** [randomInt(a, b)] = [a + Math.floor(Math.random() * (b - a + 1))],
    with [u] the value returned by [Math.random()]. *)
Definition randomInt (a b : Z) (u : Q) : Z :=
  a + Qfloor (u * inject_Z (b - a + 1)).

(** One character of a word, as the one-character string [word[i]]. *)
Definition chr (ch : ascii) : string := String ch EmptyString.

Definition upper_ascii (ch : ascii) : ascii :=
  let n := nat_of_ascii ch in
  if (97 <=? n)%nat && (n <=? 122)%nat then ascii_of_nat (n - 32) else ch.

Fixpoint toUpperCase (s : string) : string :=
  match s with
  | EmptyString => EmptyString
  | String ch s' => String (upper_ascii ch) (toUpperCase s')
  end.

(** [String.fromCharCode(code)], for codes below 256. *)
Definition fromCharCode (code : Z) : string :=
  chr (ascii_of_nat (Z.to_nat code)).

(** [grid[r][c]] read as an expression: [None] is the [TypeError] raised
    when [grid[r]] is [undefined]; [Some None] is the value [undefined]. *)
Definition gridRead (grid : Grid) (r c : Z) : option (option string) :=
  match js_index grid r with
  | None => None
  | Some line => Some (js_index line c)
  end.

(** [grid[r][c] = v].  The source raises a [TypeError] when [grid[r]] is
    [undefined] and would grow the row when [c] is past its end; both are
    [None] here, and the generator is shown never to get there. *)
Definition gridSet (grid : Grid) (r c : Z) (v : string) : option Grid :=
  match js_index grid r with
  | None => None
  | Some line =>
      if (0 <=? c) && (c <? Z.of_nat (length line))
      then Some (<[Z.to_nat r := <[Z.to_nat c := v]> line]> grid)
      else None
  end.

(** ** Grid generator *)

(** Upper bound passed to [randomInt] for one coordinate of the anchor:
    [size - (d === 1 ? word.length : 1) - (d === -1 ? word.length : 0)]. *)
Definition anchorBound (size len d : Z) : Z :=
  size - (if d =? 1 then len else 1) - (if d =? -1 then len else 0).

(** The inner [for] loop of an attempt (lines 143-157), from index [i] on,
    over the characters still to check.  [Some (Some ps)]: the loop ended
    with [valid] true and [positions = ps]; [Some None]: [valid] false. *)
Fixpoint scanLine (size : Z) (grid : Grid) (row col : Z) (dir : Z * Z)
    (i : Z) (chars : list ascii) (ps : list Cell)
  : option (option (list Cell)) :=
  match chars with
  | [] => Some (Some ps)
  | ch :: rest =>
      let r := row + dir.1 * i in
      let c := col + dir.2 * i in
      if (r <? 0) || (r >=? size) || (c <? 0) || (c >=? size)
      then Some None
      else
        match gridRead grid r c with
        | None => None
        | Some (Some s) =>
            if bool_decide (s ≠ "") && bool_decide (s ≠ chr ch)
            then Some None
            else scanLine size grid row col dir (i + 1) rest (ps ++ [(r, c)])
        | Some None => Some None
        end
  end.

(** The writing loop of a valid attempt (lines 159-162). *)
Fixpoint writeWord (grid : Grid) (ps : list Cell) (chars : list ascii)
    {struct chars} : option Grid :=
  match chars with
  | [] => Some grid
  | ch :: rest =>
      match ps with
      | [] => None
      | (r, c) :: ps' =>
          match gridSet grid r c (chr ch) with
          | None => None
          | Some grid' => writeWord grid' ps' rest
          end
      end
  end.

Section Generator.

(** The values returned by the successive calls of [Math.random()]. *)
Variable random : nat -> Q.

(** The anchor drawn for a word of [len] letters in direction [dir]; the
    two draws are number [n] and [n + 1]. *)
Definition drawAnchor (size len : Z) (dir : Z * Z) (n : nat) : Cell :=
  (randomInt 0 (anchorBound size len dir.1) (random n),
   randomInt 0 (anchorBound size len dir.2) (random (n + 1))).

(** One pass of the [while] body up to the validity loop: draws number
    [n], [n + 1] and [n + 2]. *)
Definition attempt (size : nat) (grid : Grid) (w : string) (n : nat)
  : option (option (list Cell)) :=
  let len := Z.of_nat (String.length w) in
  match js_index DIRECTIONS
          (randomInt 0 (Z.of_nat (length DIRECTIONS) - 1) (random n)) with
  | None => None
  | Some dir =>
      let '(row, col) := drawAnchor (Z.of_nat size) len dir (n + 1) in
      scanLine (Z.of_nat size) grid row col dir 0
               (list_ascii_of_string w) []
  end.

(** [while (!placed && tries < 100)], by recursion on the tries left
    ([left = 100 - tries]).  The last component counts the attempts
    made. *)
Fixpoint placeLoop (left : nat) (size : nat) (w : string)
    (grid : Grid) (wordData : list WordData) (n : nat)
  : option (Grid * list WordData * nat * nat) :=
  match left with
  | O => Some (grid, wordData, n, O)
  | S left' =>
      match attempt size grid w n with
      | None => None
      | Some (Some ps) =>
          match writeWord grid ps (list_ascii_of_string w) with
          | None => None
          | Some grid' =>
              Some (grid', wordData ++ [mkWordData w None ps],
                    (n + 3)%nat, 1%nat)
          end
      | Some None =>
          match placeLoop left' size w grid wordData (n + 3) with
          | None => None
          | Some (g, wd, n', tries) => Some (g, wd, n', S tries)
          end
      end
  end.

(** The [for (let word of words)] loop. *)
Fixpoint placeWords (size : nat) (words : list string)
    (grid : Grid) (wordData : list WordData) (n : nat)
  : option (Grid * list WordData * nat) :=
  match words with
  | [] => Some (grid, wordData, n)
  | w :: rest =>
      match placeLoop 100 size (toUpperCase w) grid wordData n with
      | None => None
      | Some (grid', wordData', n', _) =>
          placeWords size rest grid' wordData' n'
      end
  end.

(** Body of the random fill for cell [(r, c)] (lines 173-175). *)
Definition fillCell (grid : Grid) (r c : nat) (n : nat)
  : option (Grid * nat) :=
  match gridRead grid (Z.of_nat r) (Z.of_nat c) with
  | None => None
  | Some (Some s) =>
      if bool_decide (s = "")
      then
        match gridSet grid (Z.of_nat r) (Z.of_nat c)
                (fromCharCode (65 + randomInt 0 25 (random n))) with
        | None => None
        | Some grid' => Some (grid', S n)
        end
      else Some (grid, n)
  | Some None => Some (grid, n)
  end.

(** [for (let c = 0; c < size; ++c)], over the column indices [cs]. *)
Fixpoint fillRow (grid : Grid) (r : nat) (cs : list nat) (n : nat)
  : option (Grid * nat) :=
  match cs with
  | [] => Some (grid, n)
  | c :: cs' =>
      match fillCell grid r c n with
      | None => None
      | Some (grid', n') => fillRow grid' r cs' n'
      end
  end.

(** [for (let r = 0; r < size; ++r)], over the row indices [rs]. *)
Fixpoint fillRows (grid : Grid) (size : nat) (rs : list nat) (n : nat)
  : option (Grid * nat) :=
  match rs with
  | [] => Some (grid, n)
  | r :: rs' =>
      match fillRow grid r (seq 0 size) n with
      | None => None
      | Some (grid', n') => fillRows grid' size rs' n'
      end
  end.

(** [generateGrid(size, words)], first draw number [n].  Returns the
    grid, the word table and the index of the next draw. *)
Definition generateGrid (size : nat) (words : list string) (n : nat)
  : option (Grid * list WordData * nat) :=
  let grid0 := replicate size (replicate size "") in
  match placeWords size words grid0 [] n with
  | None => None
  | Some (grid, wordData, n') =>
      match fillRows grid size (seq 0 size) n' with
      | None => None
      | Some (grid', n'') => Some (grid', wordData, n'')
      end
  end.

End Generator.

(** Reading the grid along a cell sequence. *)
Fixpoint readCells (grid : Grid) (ps : list Cell) : option (list string) :=
  match ps with
  | [] => Some []
  | (r, c) :: ps' =>
      match gridRead grid r c with
      | Some (Some s) =>
          match readCells grid ps' with
          | Some l => Some (s :: l)
          | None => None
          end
      | _ => None
      end
  end.

(** ** Selection resolver *)

(** Helper to check straight lines. *)
Definition getLine (start finish : Cell) : option (list Cell) :=
  let '(r1, c1) := start in
  let '(r2, c2) := finish in
  let dr := r2 - r1 in
  let dc := c2 - c1 in
  let len := Z.max (Z.abs dr) (Z.abs dc) in
  if negb (((dr =? 0) && negb (dc =? 0))
           || ((dc =? 0) && negb (dr =? 0))
           || (Z.abs dr =? Z.abs dc))
  then None
  else
    let stepR := if dr =? 0 then 0 else dr / Z.abs dr in
    let stepC := if dc =? 0 then 0 else dc / Z.abs dc in
    Some (map (fun i : nat => (r1 + stepR * Z.of_nat i, c1 + stepC * Z.of_nat i))
              (seq 0 (Z.to_nat len + 1))).

(** [a.every(([r, c], i) => r === b[i][0] && c === b[i][1])], from index
    [i] on.  ([b[i]] is defined wherever the caller gets to: the lengths
    have been compared.) *)
Fixpoint everyFrom (i : nat) (a b : list Cell) : bool :=
  match a with
  | [] => true
  | (r, c) :: a' =>
      match b !! i with
      | Some (r', c') => (r =? r') && (c =? c') && everyFrom (S i) a' b
      | None => false
      end
  end.

Definition arraysEqual (a b : list Cell) : bool :=
  if negb (length a =? length b)%nat then false else everyFrom 0 a b.

(** The test of the loop of [getSelectedWord] on one entry. *)
Definition matchesSelection (ps : list Cell) (wd : WordData) : bool :=
  bool_decide (foundBy wd = None)
  && (arraysEqual (positions wd) ps || arraysEqual (rev (positions wd)) ps).

(** Helper to get word at selected positions: [Some wd] is
    [{ word: wd.word, wordData: wd }], [None] is
    [{ word: "", wordData: null }]. *)
Fixpoint getSelectedWord (wordList : list WordData) (ps : list Cell)
  : option WordData :=
  match wordList with
  | [] => None
  | wd :: rest =>
      if matchesSelection ps wd then Some wd else getSelectedWord rest ps
  end.

(** ** Session *)

Inductive GameState : Type :=
  setup | playing | completed | animatingAI | animatingPlayer.

Inductive Difficulty : Type := Easy | Medium | Hard.

#[global] Instance GameState_eq_dec : EqDecision GameState.
Proof. solve_decision. Defined.

#[global] Instance Difficulty_eq_dec : EqDecision Difficulty.
Proof. solve_decision. Defined.

Record Config : Type := mkConfig {
  gridSize : nat;
  words : list string;
  aiInterval : Z;
  aiSkill : Q
}.

Definition DIFFICULTY_CONFIG (d : Difficulty) : Config :=
  match d with
  | Easy =>
      mkConfig 8
        ["CAT"; "DOG"; "TREE"; "BOOK"; "FISH"; "SUN"; "MOON"; "CAR"; "BIRD";
         "STAR"]
        1800 (3 # 10)
  | Medium =>
      mkConfig 12
        ["ELEPHANT"; "COMPUTER"; "JAVASCRIPT"; "FLOWER"; "MOUNTAIN"; "PYTHON";
         "OCEAN"; "LAPTOP"; "SPIDER"; "GUITAR"; "PLANET"; "RIVER"]
        1300 (55 # 100)
  | Hard =>
      mkConfig 16
        ["ASTRONOMY"; "MICROSCOPE"; "ARCHITECTURE"; "PHILOSOPHY";
         "INTERNATIONAL"; "NEXTJS"; "EXPERIMENT"; "TECHNOLOGY"; "ALGORITHM";
         "THEORY"; "ENIGMA"; "SYNTHESIS"; "DEVELOPMENT"; "QUANTUM";
         "CALCULATOR"; "STRATEGY"]
        900 (8 # 10)
  end.

(** An entry of [foundWords]. *)
Record FoundWord : Type := mkFoundWord {
  fw_word : string;
  fw_by : Finder;
  fw_positions : list Cell
}.

(** A callback handed to [setTimeout] and not yet run, with the values its
    closure captured.  The source never cancels one. *)
Inductive Timeout : Type :=
  | PlayerFound (w : string) (ps : list Cell)   (* line 349, 400 ms *)
  | AiFound (chosen : WordData)                 (* line 416, 700 ms *)
  | Finish.                                     (* line 438, 1200 ms *)

(** The state of the component: the [useState] cells the game logic reads
    or writes, whether the interval held by [aiIntervalRef] is running,
    the pending timeouts, and the number of [Math.random()] calls made. *)
Record State : Type := mkState {
  gameState : GameState;
  difficulty : Difficulty;
  grid : Grid;
  wordList : list WordData;
  selected : list Cell;
  foundWords : list FoundWord;
  playerScore : nat;
  aiScore : nat;
  aiHighlight : list Cell;
  aiThinking : bool;
  intervalOn : bool;
  timeouts : list Timeout;
  draws : nat
}.

Definition initialState : State :=
  mkState setup Easy [] [] [] [] 0 0 [] false false [] 0.

Definition setGameState (g : GameState) (s : State) : State :=
  mkState g (difficulty s) (grid s) (wordList s) (selected s) (foundWords s)
    (playerScore s) (aiScore s) (aiHighlight s) (aiThinking s)
    (intervalOn s) (timeouts s) (draws s).

Definition setDifficulty (d : Difficulty) (s : State) : State :=
  mkState (gameState s) d (grid s) (wordList s) (selected s) (foundWords s)
    (playerScore s) (aiScore s) (aiHighlight s) (aiThinking s)
    (intervalOn s) (timeouts s) (draws s).

Definition setSelected (sel : list Cell) (s : State) : State :=
  mkState (gameState s) (difficulty s) (grid s) (wordList s) sel
    (foundWords s) (playerScore s) (aiScore s) (aiHighlight s)
    (aiThinking s) (intervalOn s) (timeouts s) (draws s).

Definition setWordList (wl : list WordData) (s : State) : State :=
  mkState (gameState s) (difficulty s) (grid s) wl (selected s)
    (foundWords s) (playerScore s) (aiScore s) (aiHighlight s)
    (aiThinking s) (intervalOn s) (timeouts s) (draws s).

Definition setFoundWords (fw : list FoundWord) (s : State) : State :=
  mkState (gameState s) (difficulty s) (grid s) (wordList s) (selected s)
    fw (playerScore s) (aiScore s) (aiHighlight s) (aiThinking s)
    (intervalOn s) (timeouts s) (draws s).

Definition setPlayerScore (n : nat) (s : State) : State :=
  mkState (gameState s) (difficulty s) (grid s) (wordList s) (selected s)
    (foundWords s) n (aiScore s) (aiHighlight s) (aiThinking s)
    (intervalOn s) (timeouts s) (draws s).

Definition setAiScore (n : nat) (s : State) : State :=
  mkState (gameState s) (difficulty s) (grid s) (wordList s) (selected s)
    (foundWords s) (playerScore s) n (aiHighlight s) (aiThinking s)
    (intervalOn s) (timeouts s) (draws s).

Definition setAiHighlight (h : list Cell) (s : State) : State :=
  mkState (gameState s) (difficulty s) (grid s) (wordList s) (selected s)
    (foundWords s) (playerScore s) (aiScore s) h (aiThinking s)
    (intervalOn s) (timeouts s) (draws s).

Definition setAIThinking (b : bool) (s : State) : State :=
  mkState (gameState s) (difficulty s) (grid s) (wordList s) (selected s)
    (foundWords s) (playerScore s) (aiScore s) (aiHighlight s) b
    (intervalOn s) (timeouts s) (draws s).

Definition setIntervalOn (b : bool) (s : State) : State :=
  mkState (gameState s) (difficulty s) (grid s) (wordList s) (selected s)
    (foundWords s) (playerScore s) (aiScore s) (aiHighlight s)
    (aiThinking s) b (timeouts s) (draws s).

Definition setTimeouts (ts : list Timeout) (s : State) : State :=
  mkState (gameState s) (difficulty s) (grid s) (wordList s) (selected s)
    (foundWords s) (playerScore s) (aiScore s) (aiHighlight s)
    (aiThinking s) (intervalOn s) ts (draws s).

Definition setDraws (n : nat) (s : State) : State :=
  mkState (gameState s) (difficulty s) (grid s) (wordList s) (selected s)
    (foundWords s) (playerScore s) (aiScore s) (aiHighlight s)
    (aiThinking s) (intervalOn s) (timeouts s) n.

(** [wordList.filter((w) => !w.foundBy)] *)
Definition unfound (wl : list WordData) : list WordData :=
  filter (fun w => foundBy w = None) wl.

(** [wl.map((w) => w.word === word ? { ...w, foundBy: by } : w)] *)
Definition markFound (w : string) (by_ : Finder) (wl : list WordData)
  : list WordData :=
  map (fun wd =>
         if bool_decide (word wd = w)
         then mkWordData (word wd) (Some by_) (positions wd)
         else wd) wl.

(** [[...candidates].sort((a, b) => b.word.length - a.word.length)]: the
    sort is stable, so an insertion sort that keeps equal lengths in list
    order gives the same array. *)
Fixpoint insertByLength (x : WordData) (l : list WordData) : list WordData :=
  match l with
  | [] => [x]
  | y :: l' =>
      if (String.length (word x) <? String.length (word y))%nat
      then y :: insertByLength x l'
      else x :: y :: l'
  end.

Definition sortByLengthDesc (l : list WordData) : list WordData :=
  foldr insertByLength [] l.

(** The effect of lines 393-449, run after a render in which one of
    [gameState, wordList, difficulty, foundWords] changed: the previous
    interval is cleared and a new one is started while playing. *)
Definition aiEffect (s : State) : State :=
  setIntervalOn (bool_decide (gameState s = playing)) s.

(** The effect of lines 452-459, run after a render in which [foundWords]
    changed; the state change it makes re-runs [aiEffect]. *)
Definition gameEndEffect (s : State) : State :=
  if bool_decide (gameState s = playing)
     && bool_decide (length (unfound (wordList s)) = 0%nat)
  then aiEffect (setIntervalOn false (setGameState completed s))
  else s.

(** [x < y] on the numbers compared by the rival's scheduler. *)
Definition Qltb (x y : Q) : bool := negb (Qle_bool y x).

(** Handle cell selection. *)
Definition handleCellMouseDown (r c : Z) (s : State) : State :=
  if bool_decide (gameState s ≠ playing) then s
  else setSelected [(r, c)] s.

Definition handleCellMouseEnter (r c : Z) (s : State) : State :=
  if bool_decide (gameState s ≠ playing)
     || bool_decide (length (selected s) = 0%nat)
  then s
  else
    match selected s with
    | [] => s
    | (startR, startC) :: _ =>
        (* Only allow straight lines *)
        match getLine (startR, startC) (r, c) with
        | Some line => setSelected line s
        | None => s
        end
    end.

Definition handleCellMouseUp (s : State) : State :=
  if bool_decide (gameState s ≠ playing)
     || (length (selected s) <? 2)%nat
  then setSelected [] s
  else
    match getSelectedWord (wordList s) (selected s) with
    | Some wd =>
        if bool_decide (foundBy wd = None)
        then
          (* Animate found word *)
          aiEffect
            (setTimeouts (timeouts s ++ [PlayerFound (word wd) (positions wd)])
               (setGameState animatingPlayer s))
        else setSelected [] s
    | None => setSelected [] s
    end.

(** The callbacks of the three [setTimeout] calls, followed by the effects
    of the render they cause. *)
Definition runTimeout (t : Timeout) (s : State) : State :=
  match t with
  | PlayerFound w ps =>
      gameEndEffect (aiEffect
        (setGameState playing
          (setSelected []
            (setPlayerScore (S (playerScore s))
              (setWordList (markFound w player (wordList s))
                (setFoundWords (foundWords s ++ [mkFoundWord w player ps])
                   s))))))
  | AiFound chosen =>
      gameEndEffect (aiEffect
        (setGameState playing
          (setAIThinking false
            (setAiHighlight []
              (setAiScore (S (aiScore s))
                (setWordList (markFound (word chosen) ai (wordList s))
                  (setFoundWords
                     (foundWords s
                      ++ [mkFoundWord (word chosen) ai (positions chosen)])
                     s)))))))
  | Finish =>
      if bool_decide (gameState s = completed) then s
      else aiEffect (setGameState completed s)
  end.

Section Session.

Variable random : nat -> Q.

(** Start a new game. *)
Definition startGame (dif : Difficulty) (s : State) : State :=
  let conf := DIFFICULTY_CONFIG dif in
  match generateGrid random (gridSize conf) (words conf) (draws s) with
  | None => s
  | Some (g, wordData, n) =>
      gameEndEffect (aiEffect
        (mkState playing (difficulty s) g wordData [] [] 0 0 [] false
           (intervalOn s) (timeouts s) n))
  end.

(** The rival's choice among the candidates (lines 405-412), first draw
    number [n]: the chosen entry ([None] for [undefined]) and the index
    of the next draw. *)
Definition chooseWord (dif : Difficulty) (candidates : list WordData)
    (n : nat) : option WordData * nat :=
  if bool_decide (dif = Hard)
  then
    if Qltb (random n) (6 # 10)
    then (head (sortByLengthDesc candidates), S n)
    else (js_index candidates
            (randomInt 0 (Z.of_nat (length candidates) - 1) (random (S n))),
          S (S n))
  else (js_index candidates
          (randomInt 0 (Z.of_nat (length candidates) - 1) (random n)),
        S n).

(** The completion test and what follows it (lines 433-442), on the
    [wordList] and [foundWords] the callback closed over. *)
Definition finishCheck (wl : list WordData) (fw : list FoundWord)
    (s : State) : State :=
  if bool_decide (length (unfound wl) = 0%nat)
     || (length wl <=? length fw + 1)%nat
  then setIntervalOn false (setTimeouts (timeouts s ++ [Finish]) s)
  else s.

(** The callback of [setInterval] (lines 398-443), followed by the
    effect of the render it causes. *)
Definition intervalTick (s : State) : State :=
  if bool_decide (gameState s ≠ playing) then s
  else
    let conf := DIFFICULTY_CONFIG (difficulty s) in
    let n := draws s in
    if Qltb (random n) (aiSkill conf)
    then
      let candidates := unfound (wordList s) in
      if (0 <? length candidates)%nat
      then
        match chooseWord (difficulty s) candidates (S n) with
        | (Some chosen, n') =>
            aiEffect
              (finishCheck (wordList s) (foundWords s)
                (setTimeouts (timeouts s ++ [AiFound chosen])
                  (setGameState animatingAI
                    (setAiHighlight (positions chosen)
                      (setAIThinking true (setDraws n' s))))))
        | (None, n') =>
            (* [chosen.positions] raises: the callback stops here *)
            setAIThinking true (setDraws n' s)
        end
      else finishCheck (wordList s) (foundWords s) (setDraws (S n) s)
    else finishCheck (wordList s) (foundWords s) (setDraws (S n) s).

(** What can happen to the component. *)
Inductive Event : Type :=
  | ClickStartGame                 (* "Start Game" and "Play Again" *)
  | ClickDifficulty (d : Difficulty)
  | ClickMainMenu                  (* "Restart" and "Main Menu" *)
  | CellMouseDown (r c : Z)        (* onMouseDown, onTouchStart *)
  | CellMouseEnter (r c : Z)       (* onMouseEnter, onTouchMove *)
  | GridMouseUp                    (* onMouseUp, onTouchEnd *)
  | GridMouseLeave                 (* onMouseLeave, onTouchCancel *)
  | IntervalTick
  | TimeoutFires (k : nat).        (* the k-th pending timeout runs *)

(** One event, applied where the element that receives it is rendered
    (the buttons and the grid are rendered according to [gameState]), the
    interval is running, or the timeout is pending. *)
Definition step (s : State) (e : Event) : State :=
  match e with
  | ClickStartGame =>
      if bool_decide (gameState s = setup)
         || bool_decide (gameState s = completed)
      then startGame (difficulty s) s else s
  | ClickDifficulty d =>
      if bool_decide (gameState s = setup)
      then (if bool_decide (d = difficulty s) then s
            else aiEffect (setDifficulty d s))
      else s
  | ClickMainMenu =>
      if bool_decide (gameState s ≠ setup)
      then aiEffect (setGameState setup s) else s
  | CellMouseDown r c =>
      if bool_decide (gameState s ≠ setup)
      then handleCellMouseDown r c s else s
  | CellMouseEnter r c =>
      if bool_decide (gameState s ≠ setup)
      then handleCellMouseEnter r c s else s
  | GridMouseUp =>
      if bool_decide (gameState s ≠ setup)
      then handleCellMouseUp s else s
  | GridMouseLeave =>
      if bool_decide (gameState s ≠ setup)
      then setSelected [] s else s
  | IntervalTick =>
      if intervalOn s then intervalTick s else s
  | TimeoutFires k =>
      match timeouts s !! k with
      | Some t => runTimeout t (setTimeouts (delete k (timeouts s)) s)
      | None => s
      end
  end.

Definition run (s : State) (es : list Event) : State :=
  fold_left step es s.

End Session.

(** ** Specification vocabulary *)

(** The pair is on a row, on a column or on a 45 degree diagonal. *)
Definition straightPair (a b : Cell) : Prop :=
  b.1 - a.1 = 0 ∨ b.2 - a.2 = 0 ∨ Z.abs (b.1 - a.1) = Z.abs (b.2 - a.2).

(** The [n + 1] lattice points met from [a] by [n] steps of [d]. *)
Definition lineFrom (a : Cell) (d : Z * Z) (n : nat) : list Cell :=
  map (fun i : nat => (a.1 + d.1 * Z.of_nat i, a.2 + d.2 * Z.of_nat i))
      (seq 0 (S n)).

(** The unit step that leads from [a] towards [b]. *)
Definition stepTowards (a b : Cell) : Z * Z :=
  (Z.sgn (b.1 - a.1), Z.sgn (b.2 - a.2)).

(** Number of steps between [a] and [b]. *)
Definition stepsBetween (a b : Cell) : nat :=
  Z.to_nat (Z.max (Z.abs (b.1 - a.1)) (Z.abs (b.2 - a.2))).

(** Both components of the step are -1, 0 or 1. *)
Definition unitStep (d : Z * Z) : Prop :=
  -1 <= d.1 <= 1 ∧ -1 <= d.2 <= 1.

(** A selection that starts at [a] and goes straight. *)
Definition straightFrom (a : Cell) (sel : list Cell) : Prop :=
  ∃ d n, unitStep d ∧ (n = 0%nat ∨ d ≠ (0, 0)) ∧ sel = lineFrom a d n.

(** What a selection in progress looks like. *)
Definition straightSelection (sel : list Cell) : Prop :=
  sel = [] ∨ ∃ a, straightFrom a sel.

(** The grid has [size] rows of [size] cells. *)
Definition square (size : nat) (grid : Grid) : Prop :=
  length grid = size ∧ Forall (fun line => length line = size) grid.

(** The cell is one of the grid. *)
Definition inGrid (size : nat) (p : Cell) : Prop :=
  0 <= p.1 < Z.of_nat size ∧ 0 <= p.2 < Z.of_nat size.

(** [keeps g g']: every cell that holds a letter in [g] holds the same
    letter in [g']. *)
Definition keeps (g g' : Grid) : Prop :=
  ∀ r c s, gridRead g r c = Some (Some s) → s ≠ "" →
           gridRead g' r c = Some (Some s).

(** The cells [(row + dr * j, col + dc * j)] for [n] indices [j] from [i]
    on. *)
Fixpoint cellsOf (row col : Z) (dir : Z * Z) (i : Z) (n : nat) : list Cell :=
  match n with
  | O => []
  | S n' => (row + dir.1 * i, col + dir.2 * i) :: cellsOf row col dir (i + 1) n'
  end.

(** Every cell of [ps] holds nothing yet, or the letter of [chars] that
    goes there. *)
Definition fits (g : Grid) (ps : list Cell) (chars : list ascii) : Prop :=
  Forall2 (fun p ch => ∃ s, gridRead g p.1 p.2 = Some (Some s)
                            ∧ (s = "" ∨ s = chr ch)) ps chars.

(** [Math.random()] returns a number in the half-open interval from 0
    (inclusive) to 1 (exclusive). *)
Definition unitInterval (random : nat → Q) : Prop :=
  ∀ n, (0 <= random n)%Q ∧ (random n < 1)%Q.

(** Every placement recorded so far can be read off the grid. *)
Definition holds (g : Grid) (wd : list WordData) : Prop :=
  Forall (fun w => readCells g (positions w)
                   = Some (map chr (list_ascii_of_string (word w)))) wd.

(** What the [while] loop did for one word, from draw [n] on with [left]
    tries allowed: either try number [tries] was the first valid one and
    the word was written and recorded, or all [left] tries failed and
    nothing changed. *)
Definition loopOutcome (random : nat → Q) (size : nat) (w : string)
    (g : Grid) (wd : list WordData) (n left : nat)
    (out : Grid * list WordData * nat * nat) : Prop :=
  let '(g', wd', n', tries) := out in
  (tries <= left)%nat ∧ n' = (n + 3 * tries)%nat
  ∧ ((∃ k ps, tries = S k
        ∧ attempt random size g w (n + 3 * k) = Some (Some ps)
        ∧ (∀ j, (j < k)%nat → attempt random size g w (n + 3 * j) = Some None)
        ∧ writeWord g ps (list_ascii_of_string w) = Some g'
        ∧ wd' = wd ++ [mkWordData w None ps])
     ∨ (tries = left
        ∧ (∀ j, (j < left)%nat →
                attempt random size g w (n + 3 * j) = Some None)
        ∧ g' = g ∧ wd' = wd)).

(** The outcome of the loop over the words: one [loopOutcome] with 100
    tries per word, in list order. *)
Inductive placedAll (random : nat → Q) (size : nat)
  : list string → Grid → list WordData → nat
    → Grid → list WordData → nat → Prop :=
  | placedAll_nil g wd n : placedAll random size [] g wd n g wd n
  | placedAll_cons w ws g wd n g1 wd1 n1 tries g' wd' n' :
      loopOutcome random size (toUpperCase w) g wd n 100
        (g1, wd1, n1, tries) →
      placedAll random size ws g1 wd1 n1 g' wd' n' →
      placedAll random size (w :: ws) g wd n g' wd' n'.

(** A cell that holds one capital letter. *)
Definition upperAZ (s : string) : Prop :=
  ∃ ch, s = chr ch ∧ (65 <= nat_of_ascii ch <= 90)%nat.

(** A cell that holds one character. *)
Definition oneChar (s : string) : Prop := ∃ ch, s = chr ch.

(** [fillsTo P g g']: a cell with a letter keeps it, an empty cell stays
    empty or gets a one-character string that satisfies [P]. *)
Definition fillsTo (P : string → Prop) (g g' : Grid) : Prop :=
  ∀ r c s, gridRead g r c = Some (Some s) →
    ∃ s', gridRead g' r c = Some (Some s')
          ∧ (s ≠ "" → s' = s)
          ∧ (s = "" → s' = "" ∨ (s' ≠ "" ∧ P s')).

(** The cell [(r, c)] holds a character. *)
Definition filledAt (g : Grid) (r c : nat) : Prop :=
  ∃ s, gridRead g (Z.of_nat r) (Z.of_nat c) = Some (Some s) ∧ s ≠ "".

(** The cells read along a sequence, concatenated. *)
Definition joinCells (cells : list string) : string :=
  fold_right String.append "" cells.

Definition readAlong (g : Grid) (ps : list Cell) : option string :=
  match readCells g ps with
  | Some cells => Some (joinCells cells)
  | None => None
  end.

(** [cellsIn R g]: every cell of [g] is empty or satisfies [R]. *)
Definition cellsIn (R : string → Prop) (g : Grid) : Prop :=
  ∀ r c s, gridRead g r c = Some (Some s) → s = "" ∨ R s.

(** Every character of the upper-cased word satisfies [R]. *)
Definition wordIn (R : string → Prop) (w : string) : Prop :=
  Forall (fun ch => R (chr ch)) (list_ascii_of_string (toUpperCase w)).

(** One of A-Z, a-z. *)
Definition isLetter (ch : ascii) : Prop :=
  (65 <= nat_of_ascii ch <= 90)%nat ∨ (97 <= nat_of_ascii ch <= 122)%nat.

(** The word is made of the letters a-z and A-Z. *)
Definition lettersOnly (w : string) : Prop :=
  Forall isLetter (list_ascii_of_string w).

(** The word a pending timeout is going to mark as found. *)
Definition claimWord (t : Timeout) : option string :=
  match t with
  | PlayerFound w _ => Some w
  | AiFound chosen => Some (word chosen)
  | Finish => None
  end.

(** What holds of a word table and the pending timeouts during one game:
    entries of the same word are claimed alike, at most one claim is
    pending, and it is for a word nobody has claimed. *)
Definition claimsInv (wl : list WordData) (ts : list Timeout) : Prop :=
  (∀ w1 w2, w1 ∈ wl → w2 ∈ wl → word w1 = word w2 → foundBy w1 = foundBy w2)
  ∧ (length (omap claimWord ts) <= 1)%nat
  ∧ (∀ w wd, w ∈ omap claimWord ts → wd ∈ wl → word wd = w →
             foundBy wd = None).

(** ... and of the component: no claim is pending while playing, and the
    interval runs only while playing. *)
Definition gameInv (s : State) : Prop :=
  claimsInv (wordList s) (timeouts s)
  ∧ (gameState s = playing → omap claimWord (timeouts s) = [])
  ∧ (intervalOn s = true → gameState s = playing).

(** Every claimed entry of [wl] is the same entry of [wl']. *)
Definition claimsKept (wl wl' : list WordData) : Prop :=
  ∀ i wd, wl !! i = Some wd → foundBy wd ≠ None → wl' !! i = Some wd.

(** The cell holds a character of one of the words, upper-cased. *)
Definition fromWords (ws : list string) (s : string) : Prop :=
  ∃ w ch, w ∈ ws ∧ ch ∈ list_ascii_of_string (toUpperCase w) ∧ s = chr ch.

(** ** The other functions of the page *)

Section Shuffle.

Variable random : nat -> Q.
Context {A : Type}.

(** The loop of [shuffleArray] (lines 109-112) from index [i] down to 1;
    draw number [n] is the next one.  The destructuring assignment reads
    [copy[j]] and [copy[i]] first, then writes [copy[i]], then [copy[j]].
    An index [j] outside the array, which the source would read as
    [undefined], is [None] here. *)
Fixpoint shuffleFrom (i : nat) (copy : list A) (n : nat)
  : option (list A * nat) :=
  match i with
  | O => Some (copy, n)
  | S i' =>
      let j := Qfloor (random n * inject_Z (Z.of_nat i + 1)) in
      match js_index copy j, copy !! i with
      | Some y, Some x =>
          shuffleFrom i' (<[Z.to_nat j := x]> (<[i := y]> copy)) (S n)
      | _, _ => None
      end
  end.

(** [shuffleArray(arr)], first draw number [n]. *)
Definition shuffleArray (arr : list A) (n : nat) : option (list A * nat) :=
  shuffleFrom (length arr - 1) arr n.

End Shuffle.

(** [ps.find(([rr, cc]) => rr === r && cc === c)] finds a cell. *)
Definition findsCell (ps : list Cell) (r c : Z) : bool :=
  existsb (fun p => (p.1 =? r) && (p.2 =? c)) ps.

(** What [getCellStatus] returns. *)
Record CellStatus : Type := mkCellStatus {
  cs_foundBy : option Finder;
  cs_isSelecting : bool;
  cs_isAIHighlight : bool
}.

(** Animate found words (lines 369-390). *)
Definition getCellStatus (r c : Z) (s : State) : CellStatus :=
  mkCellStatus
    (fold_left
       (fun foundBy fw =>
          if findsCell (fw_positions fw) r c then Some (fw_by fw) else foundBy)
       (foundWords s) None)
    (findsCell (selected s) r c)
    (findsCell (aiHighlight s) r c).



(** ** Specification vocabulary of the other functions *)

(** A placement as [generateGrid] records it: unclaimed, on the line of
    one of the eight directions from some anchor, as long as its word,
    inside the grid, no cell twice. *)
Definition wellPlaced (size : nat) (w : WordData) : Prop :=
  foundBy w = None
  ∧ (∃ dir row col, dir ∈ DIRECTIONS
       ∧ positions w = cellsOf row col dir 0 (String.length (word w)))
  ∧ Forall (inGrid size) (positions w)
  ∧ NoDup (positions w).

(** Number of entries of the log by one finder. *)
Definition countBy (f : Finder) (fw : list FoundWord) : nat :=
  length (filter (fun e => fw_by e = f) fw).

(** What the log and the scores look like after an event, against what
    they were. *)
Inductive logChange (s s' : State) : Prop :=
  | log_same :
      foundWords s' = foundWords s → playerScore s' = playerScore s →
      aiScore s' = aiScore s → logChange s s'
  | log_reset :
      foundWords s' = [] → playerScore s' = 0%nat → aiScore s' = 0%nat →
      logChange s s'
  | log_player w ps :
      foundWords s' = foundWords s ++ [mkFoundWord w player ps] →
      playerScore s' = S (playerScore s) → aiScore s' = aiScore s →
      logChange s s'
  | log_ai w ps :
      foundWords s' = foundWords s ++ [mkFoundWord w ai ps] →
      playerScore s' = playerScore s → aiScore s' = S (aiScore s) →
      logChange s s'.

(** The entry is the first of the longest of the list. *)
Definition firstLongest (x : WordData) (l : list WordData) : Prop :=
  ∃ i, l !! i = Some x
       ∧ (∀ y, y ∈ l →
            (String.length (word y) <= String.length (word x))%nat)
       ∧ (∀ j y, (j < i)%nat → l !! j = Some y →
            (String.length (word y) < String.length (word x))%nat).

(** What holds of the interval and of the two animation states: the
    interval runs only while playing, and an animation state has the
    timeout that ends it pending. *)
Definition runtimeInv (s : State) : Prop :=
  (intervalOn s = true → gameState s = playing)
  ∧ (gameState s = animatingPlayer → ∃ w ps, PlayerFound w ps ∈ timeouts s)
  ∧ (gameState s = animatingAI → ∃ chosen, AiFound chosen ∈ timeouts s).

(** No claim is waiting in a timeout. *)
Definition noClaimPending (s : State) : Prop :=
  omap claimWord (timeouts s) = [].

(** [s'] has the grid, the words and the cells of [s], and a log that
    starts with the log of [s]. *)
Definition sameGame (s s' : State) : Prop :=
  grid s' = grid s
  ∧ map word (wordList s') = map word (wordList s)
  ∧ map positions (wordList s') = map positions (wordList s)
  ∧ foundWords s `prefix_of` foundWords s'.

(** ** Runs used as instances *)

(** A run of [Math.random()] values for an Easy game: word number [k] is
    drawn rightwards at row [k mod 8], the first eight at column 0 and the
    last two at column 4; every later draw is [d]. *)
Definition easyScript : list Q :=
  [ 0; 0; 0;        0; 1 # 8; 0;    0; 2 # 8; 0;    0; 3 # 8; 0;
    0; 4 # 8; 0;    0; 5 # 8; 0;    0; 6 # 8; 0;    0; 7 # 8; 0;
    0; 0; 4 # 5;    0; 1 # 8; 4 # 5 ]%Q.

(** The draws of [easyScript], then [d] for ever. *)
Definition scripted (d : Q) (n : nat) : Q := nth n easyScript d.

(** [Math.random()] returns 0 every time. *)
Definition zeroOracle : nat -> Q := fun _ => 0%Q.

(** A run of draws that picks the direction "up" and the anchor (0, 0). *)
Definition upOracle (n : nat) : Q :=
  match n with
  | O => 3 # 8
  | _ => 0
  end.

(** The same 60 draws over and over: the 30 of [easyScript], then 0. *)
Definition replayed (n : nat) : Q := scripted 0 (n mod 60).

(** Press at [(r1, c1)], move to [(r2, c2)], release, and let the 400 ms
    timeout run. *)
Definition drag (r1 c1 r2 c2 : Z) : list Event :=
  [CellMouseDown r1 c1; CellMouseEnter r2 c2; GridMouseUp; TimeoutFires 0].

(** An Easy game in which the player finds nine of the ten words, the
    rival's next tick draws above its skill, and the 1200 ms timeout set by
    that tick runs. *)
Definition idleFinish : list Event :=
  ClickStartGame
  :: drag 0 0 0 2 ++ drag 1 0 1 2 ++ drag 2 0 2 3 ++ drag 3 0 3 3
  ++ drag 4 0 4 3 ++ drag 5 0 5 2 ++ drag 6 0 6 3 ++ drag 7 0 7 2
  ++ drag 0 4 0 7
  ++ [IntervalTick; TimeoutFires 0].

(** An Easy game in which the rival picks CAT, the player goes back to the
    menu and starts again before the rival's 700 ms timeout runs, and
    selects CAT in the new grid; then the rival's timeout runs. *)
Definition restartRace : list Event :=
  [ClickStartGame; IntervalTick; ClickMainMenu; ClickStartGame;
   CellMouseDown 0 0; CellMouseEnter 0 2; GridMouseUp; TimeoutFires 0].

(** * Proofs *)

(** ** Selection resolver *)

Lemma lineFrom_length a d n : length (lineFrom a d n) = S n.
Proof. unfold lineFrom. by rewrite length_map, length_seq. Qed.

Lemma lineFrom_head a d n : head (lineFrom a d n) = Some a.
Proof.
  destruct a as [r c]. unfold lineFrom. cbn [seq map head fst snd].
  do 2 f_equal; lia.
Qed.

Lemma lineFrom_lookup a d n (i : nat) :
  (i <= n)%nat →
  lineFrom a d n !! i = Some (a.1 + d.1 * Z.of_nat i, a.2 + d.2 * Z.of_nat i).
Proof.
  intros Hi. unfold lineFrom. rewrite list_lookup_fmap.
  rewrite lookup_seq_lt by lia. reflexivity.
Qed.

Lemma lineFrom_last a d n :
  last (lineFrom a d n) = Some (a.1 + d.1 * Z.of_nat n, a.2 + d.2 * Z.of_nat n).
Proof.
  rewrite last_lookup, lineFrom_length. cbn [pred].
  by apply lineFrom_lookup.
Qed.

Lemma sgn_div (z : Z) : z ≠ 0 → z / Z.abs z = Z.sgn z.
Proof.
  intros Hz. destruct (Z.lt_trichotomy z 0) as [H | [H | H]]; [| lia |].
  - rewrite (Z.abs_neq z), (Z.sgn_neg z) by lia.
    replace z with ((-1) * (- z)) at 1 by lia.
    apply Z.div_mul. lia.
  - rewrite (Z.abs_eq z), (Z.sgn_pos z) by lia. apply Z.div_same. lia.
Qed.

Lemma getLine_Some_iff (a b : Cell) :
  is_Some (getLine a b) ↔ straightPair a b.
Proof.
  destruct a as [r1 c1], b as [r2 c2]. unfold getLine, straightPair.
  cbn [fst snd].
  destruct (negb _) eqn:E.
  - split; [intros [? ?]; discriminate |].
    intros H. exfalso. apply negb_true_iff in E.
    repeat (apply orb_false_iff in E; destruct E as [E ?]).
    rewrite !andb_false_iff, !negb_false_iff in *. lia.
  - split; [| by eauto]. intros _. apply negb_false_iff in E.
    rewrite !orb_true_iff, !andb_true_iff, !negb_true_iff in E. lia.
Qed.

Lemma getLine_Some (a b : Cell) (l : list Cell) :
  getLine a b = Some l → l = lineFrom a (stepTowards a b) (stepsBetween a b).
Proof.
  destruct a as [r1 c1], b as [r2 c2].
  unfold getLine, lineFrom, stepTowards, stepsBetween. cbn [fst snd].
  destruct (negb _); [discriminate |]. intros [= <-].
  replace (Z.to_nat _ + 1)%nat
    with (S (Z.to_nat (Z.max (Z.abs (r2 - r1)) (Z.abs (c2 - c1))))) by lia.
  apply map_ext. intros i. f_equal.
  - destruct (Z.eqb_spec (r2 - r1) 0) as [-> | Hne]; [done |].
    by rewrite sgn_div.
  - destruct (Z.eqb_spec (c2 - c1) 0) as [-> | Hne]; [done |].
    by rewrite sgn_div.
Qed.

Lemma lineFrom_reaches (a b : Cell) :
  straightPair a b →
  last (lineFrom a (stepTowards a b) (stepsBetween a b)) = Some b.
Proof.
  destruct a as [r1 c1], b as [r2 c2].
  unfold straightPair, stepTowards, stepsBetween. rewrite lineFrom_last.
  cbn [fst snd]. intros H. do 2 f_equal.
  - rewrite Z2Nat.id by lia.
    destruct (Z.sgn_spec (r2 - r1)) as [[? ->] | [[? ->] | [? ->]]]; lia.
  - rewrite Z2Nat.id by lia.
    destruct (Z.sgn_spec (c2 - c1)) as [[? ->] | [[? ->] | [? ->]]]; lia.
Qed.

Lemma stepTowards_unit (a b : Cell) : unitStep (stepTowards a b).
Proof.
  unfold unitStep, stepTowards. cbn [fst snd].
  destruct (Z.sgn_spec (b.1 - a.1)) as [[? ->] | [[? ->] | [? ->]]];
    destruct (Z.sgn_spec (b.2 - a.2)) as [[? ->] | [[? ->] | [? ->]]]; lia.
Qed.

Lemma getLine_straightFrom (a b : Cell) (l : list Cell) :
  getLine a b = Some l → straightFrom a l.
Proof.
  intros H. exists (stepTowards a b), (stepsBetween a b).
  split; [apply stepTowards_unit |]. split; [| by apply getLine_Some].
  unfold stepsBetween, stepTowards.
  destruct (decide (b.1 - a.1 = 0)) as [E1 | E1];
    destruct (decide (b.2 - a.2 = 0)) as [E2 | E2].
  - left. rewrite E1, E2. reflexivity.
  - right. intros [= _ H2]. apply Z.sgn_null_iff in H2. lia.
  - right. intros [= H1 _]. apply Z.sgn_null_iff in H1. lia.
  - right. intros [= H1 _]. apply Z.sgn_null_iff in H1. lia.
Qed.

(** C5.  [getLine] returns a line exactly for a row, column or diagonal
    pair; the line is the list of lattice points from the anchor to the
    candidate at unit step, [max(|dr|, |dc|) + 1] of them; and
    [handleCellMouseEnter] leaves the state, hence the selection, as it is
    when the pair is not straight. *)
Theorem getLine_spec (a b : Cell) :
  (is_Some (getLine a b) ↔ straightPair a b)
  ∧ (∀ l, getLine a b = Some l →
       l = lineFrom a (stepTowards a b) (stepsBetween a b)
       ∧ unitStep (stepTowards a b)
       ∧ length l = S (stepsBetween a b)
       ∧ head l = Some a
       ∧ last l = Some b)
  ∧ (∀ s rest, selected s = a :: rest → getLine a b = None →
       handleCellMouseEnter b.1 b.2 s = s).
Proof.
  split; [apply getLine_Some_iff |]. split.
  - intros l Hl. pose proof (getLine_Some _ _ _ Hl) as ->.
    split; [done |]. split; [apply stepTowards_unit |].
    split; [apply lineFrom_length |]. split; [apply lineFrom_head |].
    apply lineFrom_reaches, getLine_Some_iff. eauto.
  - intros s rest Hs Hn. unfold handleCellMouseEnter.
    destruct (_ || _); [done |]. rewrite Hs. destruct a as [r c].
    destruct b as [r' c']. cbn [fst snd]. by rewrite Hn.
Qed.

Lemma getLine_spec_witness :
  handleCellMouseEnter 2 5
    (setSelected [(0, 0); (0, 1)] (setGameState playing initialState))
  = setSelected [(0, 0); (0, 1)] (setGameState playing initialState)
  ∧ getLine (0, 0) (3, -3) = Some [(0, 0); (1, -1); (2, -2); (3, -3)].
Proof.
  split.
  - apply (proj2 (proj2 (getLine_spec (0, 0) (2, 5))) _ [(0, 1)]);
      reflexivity.
  - destruct (proj1 (proj2 (getLine_spec (0, 0) (3, -3)))
                [(0, 0); (1, -1); (2, -2); (3, -3)]) as [H _];
      [reflexivity |].
    reflexivity.
Defined.

Lemma everyFrom_spec (a b : list Cell) (i : nat) :
  everyFrom i a b = true ↔ ∀ j x, a !! j = Some x → b !! (i + j)%nat = Some x.
Proof.
  revert i. induction a as [| [r c] a IH]; intros i; cbn [everyFrom].
  - split; [intros _ j x; by rewrite lookup_nil | done].
  - split.
    + destruct (b !! i) as [[r' c'] |] eqn:Hb; [| discriminate].
      rewrite !andb_true_iff, !Z.eqb_eq, IH. intros [[-> ->] H] [| j] x Hx.
      * cbn in Hx. injection Hx as <-. by rewrite Nat.add_0_r.
      * cbn in Hx. replace (i + S j)%nat with (S i + j)%nat by lia. eauto.
    + intros H. pose proof (H 0%nat (r, c) eq_refl) as H0.
      rewrite Nat.add_0_r in H0. rewrite H0, !Z.eqb_refl. cbn [andb]. apply IH. intros j x Hx.
      replace (S i + j)%nat with (i + S j)%nat by lia. by apply H.
Qed.

Lemma arraysEqual_spec (a b : list Cell) : arraysEqual a b = true ↔ a = b.
Proof.
  unfold arraysEqual. destruct (Nat.eqb_spec (length a) (length b)) as [E | E];
    cbn [negb].
  - rewrite everyFrom_spec. split.
    + intros H. apply list_eq_same_length with (length a); [done | done |].
      intros j x y Hj Hx Hy. apply H in Hx. cbn in Hx. congruence.
    + intros -> j x Hx. done.
  - split; [discriminate | intros ->; done].
Qed.

Lemma matchesSelection_spec (ps : list Cell) (wd : WordData) :
  matchesSelection ps wd = true
  ↔ foundBy wd = None ∧ (positions wd = ps ∨ rev (positions wd) = ps).
Proof.
  unfold matchesSelection.
  by rewrite andb_true_iff, orb_true_iff, bool_decide_eq_true,
    !arraysEqual_spec.
Qed.

Lemma matchesSelection_rev (ps : list Cell) (wd : WordData) :
  matchesSelection (rev ps) wd = matchesSelection ps wd.
Proof.
  apply eq_true_iff_eq. rewrite !matchesSelection_spec.
  split; intros [H1 [H2 | H2]]; split; try done.
  - right. apply (f_equal (@rev Cell)) in H2. by rewrite rev_involutive in H2.
  - left. apply (f_equal (@rev Cell)) in H2. by rewrite !rev_involutive in H2.
  - right. by rewrite H2.
  - left. rewrite <- H2. by rewrite rev_involutive.
Qed.

Lemma getSelectedWord_rev (wl : list WordData) (ps : list Cell) :
  getSelectedWord wl (rev ps) = getSelectedWord wl ps.
Proof.
  induction wl as [| wd wl IH]; [done |]. cbn [getSelectedWord].
  by rewrite matchesSelection_rev, IH.
Qed.

Lemma getSelectedWord_Some (wl : list WordData) (ps : list Cell) wd :
  getSelectedWord wl ps = Some wd →
  wd ∈ wl ∧ foundBy wd = None ∧ (positions wd = ps ∨ rev (positions wd) = ps).
Proof.
  induction wl as [| w wl IH]; [done |]. cbn [getSelectedWord].
  destruct (matchesSelection ps w) eqn:E.
  - intros [= <-]. apply matchesSelection_spec in E. split; [left | done].
  - intros H. destruct (IH H) as [? ?]. split; [by right | done].
Qed.

Lemma getSelectedWord_None (wl : list WordData) (ps : list Cell) :
  getSelectedWord wl ps = None →
  ∀ wd, wd ∈ wl → matchesSelection ps wd = false.
Proof.
  induction wl as [| w wl IH]; cbn [getSelectedWord].
  - intros _ wd Hwd. by apply elem_of_nil in Hwd.
  - destruct (matchesSelection ps w) eqn:E; [discriminate |].
    intros H wd [-> | Hwd]%elem_of_cons; [done | by apply IH].
Qed.

Lemma getSelectedWord_is_Some (wl : list WordData) (ps : list Cell) :
  is_Some (getSelectedWord wl ps)
  ↔ ∃ wd, wd ∈ wl ∧ foundBy wd = None
          ∧ (positions wd = ps ∨ rev (positions wd) = ps).
Proof.
  split.
  - intros [wd H]. exists wd. by apply getSelectedWord_Some.
  - intros (wd & Hin & Hm). apply matchesSelection_spec in Hm.
    destruct (getSelectedWord wl ps) eqn:E; [by eauto |].
    rewrite (getSelectedWord_None _ _ E wd Hin) in Hm. discriminate.
Qed.

(** C6.  [getSelectedWord] finds an entry exactly when some entry is
    unclaimed and has the selected cells, forwards or reversed, and what
    it returns is such an entry; hence for an unclaimed placement [p] the
    selection of its cells and the selection of its cells reversed resolve
    to one and the same entry, and releasing the pointer on either (two
    cells or more, while playing) schedules the same claim. *)
Theorem getSelectedWord_symmetric (wl : list WordData) (ps : list Cell) :
  (is_Some (getSelectedWord wl ps)
   ↔ ∃ wd, wd ∈ wl ∧ foundBy wd = None
           ∧ (positions wd = ps ∨ rev (positions wd) = ps))
  ∧ (∀ wd, getSelectedWord wl ps = Some wd →
       wd ∈ wl ∧ foundBy wd = None
       ∧ (positions wd = ps ∨ rev (positions wd) = ps))
  ∧ (∀ p, p ∈ wl → foundBy p = None →
       ∃ wd, getSelectedWord wl (positions p) = Some wd
             ∧ getSelectedWord wl (rev (positions p)) = Some wd
             ∧ ∀ s, gameState s = playing → wordList s = wl →
                 (2 <= length (positions p))%nat →
                 timeouts (handleCellMouseUp (setSelected (positions p) s))
                 = timeouts s ++ [PlayerFound (word wd) (positions wd)]
                 ∧ timeouts
                     (handleCellMouseUp (setSelected (rev (positions p)) s))
                   = timeouts s ++ [PlayerFound (word wd) (positions wd)]).
Proof.
  split; [apply getSelectedWord_is_Some |].
  split; [apply getSelectedWord_Some |].
  intros p Hp Hf.
  destruct (proj2 (getSelectedWord_is_Some wl (positions p))) as [wd Hwd].
  { exists p. auto. }
  exists wd. split; [done |]. split; [by rewrite getSelectedWord_rev |].
  intros s Hs Hwl Hlen.
  pose proof (getSelectedWord_Some _ _ _ Hwd) as (_ & Hnone & _).
  unfold handleCellMouseUp.
  cbn [gameState selected wordList setSelected timeouts].
  rewrite Hs, Hwl, length_rev, getSelectedWord_rev, Hwd, Hnone.
  rewrite bool_decide_eq_false_2 by auto.
  destruct (Nat.ltb_spec (length (positions p)) 2) as [? | _]; [lia |].
  cbn [orb]. rewrite bool_decide_eq_true_2 by done. done.
Qed.

Lemma getSelectedWord_symmetric_witness :
  getSelectedWord
    [mkWordData "CAT" None [(0, 0); (0, 1); (0, 2)];
     mkWordData "DOG" None [(1, 0); (1, 1); (1, 2)]]
    [(1, 2); (1, 1); (1, 0)]
  = Some (mkWordData "DOG" None [(1, 0); (1, 1); (1, 2)])
  ∧ ∃ wd,
      getSelectedWord
        [mkWordData "CAT" None [(0, 0); (0, 1); (0, 2)];
         mkWordData "DOG" None [(1, 0); (1, 1); (1, 2)]]
        [(0, 0); (0, 1); (0, 2)] = Some wd
      ∧ getSelectedWord
          [mkWordData "CAT" None [(0, 0); (0, 1); (0, 2)];
           mkWordData "DOG" None [(1, 0); (1, 1); (1, 2)]]
          [(0, 2); (0, 1); (0, 0)] = Some wd.
Proof.
  split; [reflexivity |].
  destruct (proj2 (proj2 (getSelectedWord_symmetric
              [mkWordData "CAT" None [(0, 0); (0, 1); (0, 2)];
               mkWordData "DOG" None [(1, 0); (1, 1); (1, 2)]] []))
              (mkWordData "CAT" None [(0, 0); (0, 1); (0, 2)]))
    as (wd & H1 & H2 & _).
  - apply list_elem_of_here.
  - reflexivity.
  - exists wd. split; assumption.
Defined.

(** C8.  A release of the pointer on a selection of fewer than two cells,
    or on one that matches no unclaimed entry, clears the selection and
    changes nothing else. *)
Theorem handleCellMouseUp_no_match (s : State) :
  (length (selected s) < 2)%nat
  ∨ getSelectedWord (wordList s) (selected s) = None →
  handleCellMouseUp s = setSelected [] s
  ∧ selected (handleCellMouseUp s) = []
  ∧ wordList (handleCellMouseUp s) = wordList s
  ∧ foundWords (handleCellMouseUp s) = foundWords s
  ∧ playerScore (handleCellMouseUp s) = playerScore s
  ∧ aiScore (handleCellMouseUp s) = aiScore s
  ∧ gameState (handleCellMouseUp s) = gameState s
  ∧ timeouts (handleCellMouseUp s) = timeouts s.
Proof.
  intros H.
  assert (handleCellMouseUp s = setSelected [] s) as ->; [| done].
  unfold handleCellMouseUp.
  destruct (bool_decide (gameState s ≠ playing)); [done |]. cbn [orb].
  destruct H as [H | H].
  - destruct (Nat.ltb_spec (length (selected s)) 2); [done | lia].
  - rewrite H. by destruct (_ <? _)%nat.
Qed.

Lemma handleCellMouseUp_no_match_witness :
  handleCellMouseUp
    (mkState playing Easy []
       [mkWordData "CAT" None [(0, 0); (0, 1); (0, 2)]]
       [(3, 3); (3, 4)] [] 0 0 [] false true [] 0)
  = mkState playing Easy []
      [mkWordData "CAT" None [(0, 0); (0, 1); (0, 2)]]
      [] [] 0 0 [] false true [] 0.
Proof.
  apply (handleCellMouseUp_no_match
           (mkState playing Easy []
              [mkWordData "CAT" None [(0, 0); (0, 1); (0, 2)]]
              [(3, 3); (3, 4)] [] 0 0 [] false true [] 0)).
  right. reflexivity.
Defined.

(** ** Session: the selection *)

Lemma selected_aiEffect s : selected (aiEffect s) = selected s.
Proof. done. Qed.

Lemma selected_gameEndEffect s : selected (gameEndEffect s) = selected s.
Proof. unfold gameEndEffect. by destruct (_ && _). Qed.

Lemma selected_finishCheck wl fw s :
  selected (finishCheck wl fw s) = selected s.
Proof. unfold finishCheck. by destruct (_ || _). Qed.

Lemma straightFrom_single (a : Cell) : straightFrom a [a].
Proof.
  exists (0, 0), 0%nat. split; [unfold unitStep; cbn; lia |].
  split; [by left |]. destruct a as [r c]. unfold lineFrom. cbn.
  by rewrite !Z.add_0_r.
Qed.

Lemma straightFrom_head (a : Cell) (sel : list Cell) :
  straightFrom a sel → head sel = Some a.
Proof. intros (d & n & _ & _ & ->). apply lineFrom_head. Qed.

(** What one event can do to the selection. *)
Lemma step_selected (random : nat → Q) (s : State) (e : Event) :
  selected (step random s e) = selected s
  ∨ selected (step random s e) = []
  ∨ (∃ a, selected (step random s e) = [a])
  ∨ (∃ a rest b l, selected s = a :: rest ∧ getLine a b = Some l
                   ∧ selected (step random s e) = l).
Proof.
  destruct e; cbn [step].
  - destruct (_ || _); [| by left]. unfold startGame.
    destruct (generateGrid _ _ _ _) as [[[g wd] n] |]; [| by left].
    right; left. by rewrite selected_gameEndEffect.
  - destruct (bool_decide _); [| by left].
    destruct (bool_decide _); by left.
  - destruct (bool_decide _); by left.
  - destruct (bool_decide _); [| by left]. unfold handleCellMouseDown.
    destruct (bool_decide _); [by left |]. right; right; left. by eexists.
  - destruct (bool_decide _); [| by left]. unfold handleCellMouseEnter.
    destruct (_ || _); [by left |].
    destruct (selected s) as [| [startR startC] rest] eqn:Hs; [by left |].
    destruct (getLine _ _) as [line |] eqn:Hl; [| by left].
    right; right; right. by exists (startR, startC), rest, (r, c), line.
  - destruct (bool_decide _); [| by left]. unfold handleCellMouseUp.
    destruct (_ || _); [by right; left |].
    destruct (getSelectedWord _ _) as [wd |]; [| by right; left].
    destruct (bool_decide _); [by left | by right; left].
  - destruct (bool_decide _); [by right; left | by left].
  - destruct (intervalOn s); [| by left]. unfold intervalTick.
    destruct (bool_decide _); [by left |].
    destruct (Qltb _ _); [| left; by rewrite selected_finishCheck].
    destruct (_ <? _)%nat; [| left; by rewrite selected_finishCheck].
    destruct (chooseWord _ _ _ _) as [[chosen |] n']; [| by left].
    left. by rewrite selected_aiEffect, selected_finishCheck.
  - destruct (timeouts s !! k) as [[w ps | chosen |] |]; [| | | by left];
      cbn [runTimeout].
    + right; left. by rewrite selected_gameEndEffect.
    + left. by rewrite selected_gameEndEffect.
    + destruct (bool_decide _); by left.
Qed.

Lemma step_straight (random : nat → Q) (s : State) (e : Event) :
  straightSelection (selected s) →
  straightSelection (selected (step random s e)).
Proof.
  intros Hs.
  destruct (step_selected random s e)
    as [-> | [-> | [[a ->] | (a & rest & b & l & _ & Hl & ->)]]].
  - done.
  - by left.
  - right. exists a. apply straightFrom_single.
  - right. exists a. by apply getLine_straightFrom with b.
Qed.

Lemma run_straight (random : nat → Q) (es : list Event) (s : State) :
  straightSelection (selected s) →
  straightSelection (selected (run random s es)).
Proof.
  revert s. induction es as [| e es IH]; intros s Hs; [done |].
  cbn [run fold_left]. apply IH. by apply step_straight.
Qed.

Lemma handleCellMouseDown_playing (r c : Z) (s : State) :
  gameState s = playing → handleCellMouseDown r c s = setSelected [(r, c)] s.
Proof.
  intros Hg. unfold handleCellMouseDown.
  rewrite bool_decide_eq_false_2; [done | rewrite Hg; auto].
Qed.

Lemma handleCellMouseEnter_playing (r c : Z) (a : Cell) rest (s : State) :
  gameState s = playing → selected s = a :: rest →
  handleCellMouseEnter r c s
  = match getLine a (r, c) with
    | Some line => setSelected line s
    | None => s
    end.
Proof.
  intros Hg Hs. unfold handleCellMouseEnter. rewrite Hs.
  rewrite bool_decide_eq_false_2 by (rewrite Hg; auto).
  rewrite bool_decide_eq_false_2 by done. cbn [orb]. by destruct a.
Qed.

Lemma step_grid_event (random : nat → Q) (s : State) :
  gameState s = playing →
  (∀ r c, step random s (CellMouseDown r c) = handleCellMouseDown r c s)
  ∧ (∀ r c, step random s (CellMouseEnter r c) = handleCellMouseEnter r c s)
  ∧ step random s GridMouseUp = handleCellMouseUp s.
Proof.
  intros Hg. cbn [step].
  rewrite bool_decide_eq_true_2; [done | by rewrite Hg].
Qed.

(** A pointer that enters cells during a drag keeps the anchor. *)
Lemma enter_keeps_anchor (random : nat → Q) (a : Cell) (s : State)
    (cells : list Cell) :
  gameState s = playing → straightFrom a (selected s) →
  gameState (run random s (map (fun p => CellMouseEnter p.1 p.2) cells))
    = playing
  ∧ straightFrom a
      (selected (run random s (map (fun p => CellMouseEnter p.1 p.2) cells))).
Proof.
  revert s. induction cells as [| [r c] cells IH]; intros s Hg Hs; [done |].
  cbn [map run fold_left fst snd].
  rewrite (proj1 (proj2 (step_grid_event random s Hg))).
  pose proof (straightFrom_head _ _ Hs) as Hh.
  destruct (selected s) as [| a' rest] eqn:Hsel; [done |].
  cbn in Hh. injection Hh as ->.
  rewrite (handleCellMouseEnter_playing r c a rest s Hg Hsel).
  destruct (getLine a (r, c)) as [line |] eqn:Hl.
  - apply IH; [done |]. by apply getLine_straightFrom with (r, c).
  - apply IH; [done |]. by rewrite Hsel.
Qed.

(** C10.  In every state the component reaches, the selection is empty or
    is a straight line of cells at a constant unit step (a single cell
    included); and from such a state, a pointer-down accepted at [(r, c)]
    followed by any pointer-enter events leaves a straight line whose first
    cell is still [(r, c)]. *)
Theorem selection_stays_straight (random : nat → Q) (es : list Event)
    (r c : Z) (cells : list Cell) :
  straightSelection (selected (run random initialState es))
  ∧ (gameState (run random initialState es) = playing →
     straightFrom (r, c)
       (selected
          (run random (run random initialState es)
             (CellMouseDown r c
              :: map (fun p => CellMouseEnter p.1 p.2) cells)))).
Proof.
  split; [apply run_straight; by left |].
  intros Hg. cbn [run fold_left].
  rewrite (proj1 (step_grid_event random _ Hg)).
  rewrite (handleCellMouseDown_playing r c _ Hg).
  apply enter_keeps_anchor; [done |]. apply straightFrom_single.
Qed.

(** ** Grid generator: the grid as an array of arrays *)

Lemma js_index_Some {A : Type} (l : list A) (k : Z) :
  0 <= k < Z.of_nat (length l) → ∃ x, js_index l k = Some x.
Proof.
  intros Hk. unfold js_index.
  destruct (Z.ltb_spec k 0) as [? | _]; [lia |].
  apply lookup_lt_is_Some_2. lia.
Qed.

Lemma js_index_lookup {A : Type} (l : list A) (k : Z) (x : A) :
  js_index l k = Some x → 0 <= k ∧ l !! Z.to_nat k = Some x.
Proof.
  unfold js_index. destruct (Z.ltb_spec k 0); [discriminate |]. auto.
Qed.

Lemma square_replicate (size : nat) :
  square size (replicate size (replicate size "")).
Proof.
  split; [apply length_replicate |].
  apply Forall_replicate, length_replicate.
Qed.

Lemma square_row (size : nat) (grid : Grid) (r : Z) line :
  square size grid → js_index grid r = Some line → length line = size.
Proof.
  intros [_ Hall] [_ Hl]%js_index_lookup.
  rewrite Forall_lookup in Hall. by apply Hall in Hl.
Qed.

Lemma gridRead_inGrid (size : nat) (grid : Grid) (p : Cell) :
  square size grid → inGrid size p →
  ∃ s, gridRead grid p.1 p.2 = Some (Some s).
Proof.
  intros Hsq [Hr Hc]. unfold gridRead.
  destruct (js_index_Some grid p.1) as [line Hline];
    [destruct Hsq as [-> _]; lia |].
  rewrite Hline. pose proof (square_row _ _ _ _ Hsq Hline) as Hlen.
  destruct (js_index_Some line p.2) as [s Hs]; [lia |].
  rewrite Hs. eauto.
Qed.

Lemma gridSet_inGrid (size : nat) (grid : Grid) (p : Cell) (v : string) :
  square size grid → inGrid size p →
  ∃ grid', gridSet grid p.1 p.2 v = Some grid'.
Proof.
  intros Hsq [Hr Hc]. unfold gridSet.
  destruct (js_index_Some grid p.1) as [line Hline];
    [destruct Hsq as [-> _]; lia |].
  rewrite Hline. pose proof (square_row _ _ _ _ Hsq Hline) as Hlen.
  destruct (Z.leb_spec 0 p.2); [| lia].
  destruct (Z.ltb_spec p.2 (Z.of_nat (length line))); [| lia].
  cbn. eauto.
Qed.

Lemma gridSet_square (size : nat) (grid grid' : Grid) (r c : Z) (v : string) :
  square size grid → gridSet grid r c v = Some grid' → square size grid'.
Proof.
  intros Hsq. unfold gridSet.
  destruct (js_index grid r) as [line |] eqn:Hline; [| discriminate].
  destruct (_ && _); [| discriminate]. intros [= <-].
  pose proof (square_row _ _ _ _ Hsq Hline) as Hlen.
  destruct Hsq as [Hl Hall]. split; [by rewrite length_insert |].
  apply Forall_insert; [done |]. cbn beta. by rewrite length_insert.
Qed.

(** Reading after a write: the written cell holds the new value, every
    other cell what it held. *)
Lemma gridRead_gridSet (grid grid' : Grid) (r c r' c' : Z) (v : string) :
  gridSet grid r c v = Some grid' →
  gridRead grid' r' c'
  = if bool_decide ((r', c') = (r, c)) then Some (Some v)
    else gridRead grid r' c'.
Proof.
  unfold gridSet.
  destruct (js_index grid r) as [line |] eqn:Hline; [| discriminate].
  destruct (Z.leb_spec 0 c); [| discriminate].
  destruct (Z.ltb_spec c (Z.of_nat (length line))); [| discriminate].
  cbn [andb]. intros [= <-].
  apply js_index_lookup in Hline as [Hr Hline].
  unfold gridRead, js_index.
  destruct (Z.ltb_spec r' 0) as [Hr' | Hr'].
  { rewrite bool_decide_eq_false_2; [done | intros [= -> ->]; lia]. }
  destruct (decide (r' = r)) as [-> | Hne].
  - rewrite list_lookup_insert_eq by (by eapply lookup_lt_Some).
    destruct (Z.ltb_spec c' 0) as [Hc' | Hc'].
    { rewrite bool_decide_eq_false_2 by (intros [= ->]; lia).
      by rewrite Hline. }
    destruct (decide (c' = c)) as [-> | Hnec].
    + rewrite bool_decide_eq_true_2 by done.
      rewrite list_lookup_insert_eq by lia. done.
    + rewrite bool_decide_eq_false_2 by congruence.
      rewrite list_lookup_insert_ne by lia. by rewrite Hline.
  - rewrite bool_decide_eq_false_2 by congruence.
    rewrite list_lookup_insert_ne by lia. done.
Qed.

Lemma keeps_refl g : keeps g g.
Proof. by intros r c s. Qed.

Lemma keeps_trans g1 g2 g3 : keeps g1 g2 → keeps g2 g3 → keeps g1 g3.
Proof. intros H1 H2 r c s Hs Hne. apply H2; [| done]. by apply H1. Qed.

(** A write over an empty cell, or over the same letter, keeps the
    letters. *)
Lemma gridSet_keeps (g g' : Grid) (r c : Z) (v s0 : string) :
  gridRead g r c = Some (Some s0) → s0 = "" ∨ s0 = v →
  gridSet g r c v = Some g' → keeps g g'.
Proof.
  intros Hold Hs0 Hset r' c' s Hs Hne.
  rewrite (gridRead_gridSet _ _ _ _ _ _ _ Hset).
  case_bool_decide as Heq; [| done].
  injection Heq as -> ->. rewrite Hold in Hs. injection Hs as ->.
  destruct Hs0 as [-> | ->]; [done | done].
Qed.

Lemma readCells_keeps (g g' : Grid) (ps : list Cell) (l : list string) :
  keeps g g' → Forall (fun s => s ≠ "") l →
  readCells g ps = Some l → readCells g' ps = Some l.
Proof.
  intros Hk. revert l. induction ps as [| [r c] ps IH]; intros l Hne;
    cbn [readCells]; [done |].
  destruct (gridRead g r c) as [[s |] |] eqn:Hs; try discriminate.
  destruct (readCells g ps) as [l' |] eqn:Hl'; [| discriminate].
  intros [= <-]. apply Forall_cons in Hne as [Hs1 Hl1].
  rewrite (Hk _ _ _ Hs Hs1), (IH l' Hl1 eq_refl). done.
Qed.

(** ** Grid generator: one attempt *)

Lemma cellsOf_length row col dir i n : length (cellsOf row col dir i n) = n.
Proof. revert i. induction n as [| n IH]; intros i; cbn; [done | by rewrite IH]. Qed.

Lemma cellsOf_elem row col dir i n (p : Cell) :
  p ∈ cellsOf row col dir i n →
  ∃ j, i <= j < i + Z.of_nat n ∧ p = (row + dir.1 * j, col + dir.2 * j).
Proof.
  revert i. induction n as [| n IH]; intros i; cbn [cellsOf].
  - by intros ?%elem_of_nil.
  - intros [-> | H]%elem_of_cons.
    + exists i. split; [lia | done].
    + destruct (IH _ H) as (j & Hj & ->). exists j. split; [lia | done].
Qed.

Lemma cellsOf_NoDup row col dir i n :
  dir ≠ (0, 0) → NoDup (cellsOf row col dir i n).
Proof.
  intros Hd. revert i. induction n as [| n IH]; intros i; cbn [cellsOf].
  - constructor.
  - constructor; [| apply IH]. intros (j & Hj & Heq)%cellsOf_elem.
    injection Heq as H1 H2. apply Hd. destruct dir as [d1 d2].
    cbn [fst snd] in *. f_equal; nia.
Qed.

Lemma DIRECTIONS_nonzero (k : Z) (dir : Z * Z) :
  js_index DIRECTIONS k = Some dir → dir ≠ (0, 0).
Proof.
  intros [_ H]%js_index_lookup. apply list_elem_of_lookup_2 in H.
  unfold DIRECTIONS in H.
  repeat (apply elem_of_cons in H as [-> | H]; [discriminate |]).
  by apply elem_of_nil in H.
Qed.

(** The validity loop never raises on a square grid; when it ends with
    [valid] true, [positions] is the line of the word, inside the grid,
    over cells that are empty or hold the letter wanted. *)
Lemma scanLine_spec (size : nat) (g : Grid) (row col : Z) (dir : Z * Z)
    (chars : list ascii) (i : Z) (ps : list Cell) :
  square size g →
  ∃ res, scanLine (Z.of_nat size) g row col dir i chars ps = Some res
    ∧ ∀ ps', res = Some ps' →
        ps' = ps ++ cellsOf row col dir i (length chars)
        ∧ Forall (inGrid size) (cellsOf row col dir i (length chars))
        ∧ fits g (cellsOf row col dir i (length chars)) chars.
Proof.
  intros Hsq. revert i ps.
  induction chars as [| ch rest IH]; intros i ps; cbn [scanLine].
  - eexists. split; [done |]. intros ps' [= <-]. cbn.
    rewrite app_nil_r. repeat split; constructor.
  - set (r := row + dir.1 * i). set (c := col + dir.2 * i).
    destruct (_ || _) eqn:Hguard.
    { eexists. split; [done |]. discriminate. }
    assert (inGrid size (r, c)) as Hin.
    { rewrite !orb_false_iff in Hguard.
      destruct Hguard as [[[H1 H2] H3] H4]. unfold inGrid. cbn [fst snd].
      lia. }
    destruct (gridRead_inGrid size g (r, c) Hsq Hin) as [s Hs].
    cbn [fst snd] in Hs. rewrite Hs.
    destruct (_ && _) eqn:Hcell.
    { eexists. split; [done |]. discriminate. }
    destruct (IH (i + 1) (ps ++ [(r, c)])) as (res & Hres & Hspec).
    exists res. split; [done |]. intros ps' ->.
    destruct (Hspec ps' eq_refl) as (-> & Hall & Hfits).
    cbn [length cellsOf]. fold r c. split; [by rewrite <- app_assoc |].
    split; [by constructor |]. constructor; [| done].
    exists s. split; [done |].
    apply andb_false_iff in Hcell.
    rewrite !bool_decide_eq_false in Hcell.
    destruct (decide (s = "")); [by left |].
    destruct (decide (s = chr ch)); [by right |]. tauto.
Qed.

Lemma fits_gridSet (g g1 : Grid) (r c : Z) (v : string) (ps : list Cell)
    (chars : list ascii) :
  gridSet g r c v = Some g1 → (r, c) ∉ ps → fits g ps chars →
  fits g1 ps chars.
Proof.
  intros Hset Hnotin Hf. induction Hf as [| [r' c'] ch ps chars Hp Hf IH].
  - constructor.
  - apply not_elem_of_cons in Hnotin as [Hne Hnotin].
    constructor; [| by apply IH].
    destruct Hp as (s & Hs & Hor). exists s. split; [| done].
    cbn [fst snd] in *. rewrite (gridRead_gridSet _ _ _ _ r' c' _ Hset).
    rewrite bool_decide_eq_false_2; [done | congruence].
Qed.

(** Writing a word over a line that fits never raises, keeps the grid
    square and every letter already there, and leaves the word on the
    line. *)
Lemma writeWord_spec (size : nat) (chars : list ascii) (ps : list Cell)
    (g : Grid) :
  square size g → Forall (inGrid size) ps → NoDup ps → fits g ps chars →
  ∃ g', writeWord g ps chars = Some g'
        ∧ square size g' ∧ keeps g g'
        ∧ readCells g' ps = Some (map chr chars).
Proof.
  revert ps g. induction chars as [| ch rest IH]; intros ps g Hsq Hin Hnd Hf.
  - apply Forall2_nil_inv_r in Hf as ->. exists g. cbn.
    split; [done |]. split; [done |]. split; [apply keeps_refl | done].
  - apply Forall2_cons_inv_r in Hf
      as ([r c] & ps' & (s0 & Hs0 & Hor) & Hf & ->).
    cbn [fst snd] in Hs0.
    apply Forall_cons in Hin as [Hin1 Hin].
    apply NoDup_cons in Hnd as [Hnotin Hnd].
    destruct (gridSet_inGrid size g (r, c) (chr ch) Hsq Hin1) as [g1 Hg1].
    cbn [fst snd] in Hg1. cbn [writeWord]. rewrite Hg1.
    pose proof (gridSet_square _ _ _ _ _ _ Hsq Hg1) as Hsq1.
    pose proof (gridSet_keeps _ _ _ _ _ _ Hs0 Hor Hg1) as Hk1.
    destruct (IH ps' g1 Hsq1 Hin Hnd) as (g' & Hw & Hsq' & Hk' & Hread).
    { by eapply fits_gridSet. }
    exists g'. split; [done |]. split; [done |].
    split; [by eapply keeps_trans |].
    cbn [readCells map]. rewrite Hread.
    rewrite (Hk' r c (chr ch)); [done | | done].
    rewrite (gridRead_gridSet _ _ _ _ r c _ Hg1).
    by rewrite bool_decide_eq_true_2.
Qed.

(** ** The random source *)

Lemma randomInt_range (a b : Z) (u : Q) :
  (0 <= u)%Q → (u < 1)%Q → a <= b → a <= randomInt a b u <= b.
Proof.
  intros H0 H1 Hab. unfold randomInt.
  set (k := b - a + 1). assert (0 < k) as Hk by lia.
  assert (0 <= Qfloor (u * inject_Z k) < k) as H; [| lia].
  split.
  - change 0 with (Qfloor 0). apply Qfloor_resp_le.
    apply Qmult_le_0_compat; [done |]. change 0%Q with (inject_Z 0).
    rewrite <- Zle_Qle. lia.
  - rewrite Zlt_Qlt. eapply Qle_lt_trans; [apply Qfloor_le |].
    rewrite <- (Qmult_1_l (inject_Z k)) at 2.
    apply Qmult_lt_compat_r; [| done].
    change 0%Q with (inject_Z 0). rewrite <- Zlt_Qlt. lia.
Qed.

(** ** Grid generator: the loops *)

Lemma chr_nonempty (chars : list ascii) :
  Forall (fun s => s ≠ "") (map chr chars).
Proof. apply Forall_fmap, Forall_true. intros ch. discriminate. Qed.

Lemma holds_keeps (g g' : Grid) (wd : list WordData) :
  keeps g g' → holds g wd → holds g' wd.
Proof.
  intros Hk Hh. eapply Forall_impl; [exact Hh |]. intros w Hw.
  eapply readCells_keeps; [done | apply chr_nonempty | done].
Qed.

Lemma length_list_ascii (w : string) :
  length (list_ascii_of_string w) = String.length w.
Proof. induction w as [| ch w IH]; cbn; [done | by rewrite IH]. Qed.

(** A valid attempt yields the line of the word: distinct cells inside the
    grid, each empty or holding the letter wanted. *)
Lemma attempt_valid (random : nat → Q) (size : nat) (g : Grid) (w : string)
    (n : nat) (ps : list Cell) :
  square size g → attempt random size g w n = Some (Some ps) →
  length ps = String.length w ∧ NoDup ps ∧ Forall (inGrid size) ps
  ∧ fits g ps (list_ascii_of_string w)
  ∧ ∃ dir row col, dir ∈ DIRECTIONS
      ∧ ps = cellsOf row col dir 0 (String.length w).
Proof.
  intros Hsq. unfold attempt.
  destruct (js_index DIRECTIONS _) as [dir |] eqn:Hdir; [| discriminate].
  destruct (drawAnchor _ _ _ _ _) as [row col].
  destruct (scanLine_spec size g row col dir (list_ascii_of_string w) 0 []
              Hsq) as (res & -> & Hspec).
  intros [= ->]. destruct (Hspec ps eq_refl) as (-> & Hin & Hfits).
  rewrite app_nil_l, length_list_ascii in *.
  split; [apply cellsOf_length |].
  split; [eapply cellsOf_NoDup, DIRECTIONS_nonzero; exact Hdir |].
  split; [done |]. split; [done |]. exists dir, row, col.
  split; [| done]. apply js_index_lookup in Hdir as [_ Hdir].
  by eapply list_elem_of_lookup_2.
Qed.

(** With draws in the unit interval an attempt never raises. *)
Lemma attempt_total (random : nat → Q) (size : nat) (g : Grid) (w : string)
    (n : nat) :
  unitInterval random → square size g →
  ∃ res, attempt random size g w n = Some res.
Proof.
  intros Hu Hsq. unfold attempt.
  destruct (js_index_Some DIRECTIONS
              (randomInt 0 (Z.of_nat (length DIRECTIONS) - 1) (random n)))
    as [dir ->].
  { destruct (Hu n) as [H0 H1].
    pose proof (randomInt_range 0 (Z.of_nat (length DIRECTIONS) - 1)
                  (random n) H0 H1) as H.
    cbn in *. lia. }
  destruct (drawAnchor _ _ _ _ _) as [row col].
  destruct (scanLine_spec size g row col dir (list_ascii_of_string w) 0 []
              Hsq) as (res & -> & _).
  eauto.
Qed.

Lemma placeLoop_outcome (random : nat → Q) (size : nat) (w : string)
    (g : Grid) (wd : list WordData) (left n : nat) out :
  placeLoop random left size w g wd n = Some out →
  loopOutcome random size w g wd n left out.
Proof.
  revert n out. induction left as [| left IH]; intros n out;
    cbn [placeLoop].
  - intros [= <-]. unfold loopOutcome. cbn beta iota. split; [lia |]. split; [lia |]. right.
    split; [done |]. split; [intros j Hj; lia | done].
  - destruct (attempt random size g w n) as [[ps |] |] eqn:Ha;
      [| | discriminate].
    + destruct (writeWord g ps _) as [g' |] eqn:Hw; [| discriminate].
      intros [= <-]. unfold loopOutcome. cbn beta iota. split; [lia |]. split; [lia |]. left.
      exists 0%nat, ps. rewrite Nat.add_0_r.
      split; [done |]. split; [done |]. split; [intros j Hj; lia | done].
    + destruct (placeLoop random left size w g wd (n + 3)) as [out' |] eqn:Hp;
        [| discriminate].
      destruct out' as [[[g' wd'] n'] tries]. intros [= <-].
      destruct (IH _ _ Hp) as (Ht & -> & Hcase).
      unfold loopOutcome. cbn beta iota.
      split; [lia |]. split; [lia |].
      assert (∀ k, (∀ j, (j < k)%nat →
                attempt random size g w (n + 3 + 3 * j) = Some None) →
              ∀ j, (j < S k)%nat →
                attempt random size g w (n + 3 * j) = Some None) as Hshift.
      { intros k Hk [| j] Hj; [by rewrite Nat.add_0_r |].
        replace (n + 3 * S j)%nat with (n + 3 + 3 * j)%nat by lia.
        apply Hk. lia. }
      destruct Hcase as [(k & ps & -> & Hv & Hbefore & Hw & ->)
                        | (-> & Hall & -> & ->)].
      * left. exists (S k), ps. split; [done |].
        replace (n + 3 * S k)%nat with (n + 3 + 3 * k)%nat by lia.
        split; [done |]. split; [by apply Hshift | done].
      * right. split; [done |]. split; [by apply Hshift | done].
Qed.

Lemma placeLoop_total (random : nat → Q) (size : nat) (w : string)
    (g : Grid) (wd : list WordData) (left n : nat) :
  unitInterval random → square size g →
  ∃ out, placeLoop random left size w g wd n = Some out.
Proof.
  intros Hu Hsq. revert n. induction left as [| left IH]; intros n;
    cbn [placeLoop]; [by eauto |].
  destruct (attempt_total random size g w n Hu Hsq) as [[ps |] Ha];
    rewrite Ha.
  - destruct (attempt_valid _ _ _ _ _ _ Hsq Ha) as (_ & Hnd & Hin & Hf & _).
    destruct (writeWord_spec size _ ps g Hsq Hin Hnd Hf) as (g' & -> & _).
    eauto.
  - destruct (IH (n + 3)%nat) as [[[[g' wd'] n'] tries] ->]. eauto.
Qed.

(** The loop keeps the grid square, keeps every letter, and keeps every
    recorded placement readable, the new one included. *)
Lemma placeLoop_invariant (random : nat → Q) (size : nat) (w : string)
    (g : Grid) (wd : list WordData) (left n : nat) g' wd' n' tries :
  square size g → holds g wd →
  placeLoop random left size w g wd n = Some (g', wd', n', tries) →
  square size g' ∧ keeps g g' ∧ holds g' wd'.
Proof.
  intros Hsq Hh Hp. apply placeLoop_outcome in Hp as (_ & _ & Hcase).
  destruct Hcase as [(k & ps & _ & Hv & _ & Hw & ->) | (_ & _ & -> & ->)].
  - destruct (attempt_valid _ _ _ _ _ _ Hsq Hv) as (_ & Hnd & Hin & Hf & _).
    destruct (writeWord_spec size _ ps g Hsq Hin Hnd Hf)
      as (g'' & Hw' & Hsq' & Hk & Hread).
    rewrite Hw in Hw'. injection Hw' as <-.
    split; [done |]. split; [done |].
    apply Forall_app. split; [by eapply holds_keeps |].
    by apply Forall_singleton.
  - split; [done |]. split; [apply keeps_refl | done].
Qed.

Lemma placeWords_placedAll (random : nat → Q) (size : nat)
    (ws : list string) g wd n g' wd' n' :
  placeWords random size ws g wd n = Some (g', wd', n') →
  placedAll random size ws g wd n g' wd' n'.
Proof.
  revert g wd n. induction ws as [| w ws IH]; intros g wd n;
    cbn [placeWords].
  - intros [= <- <- <-]. constructor.
  - destruct (placeLoop _ _ _ _ _ _ _) as [[[[g1 wd1] n1] tries] |] eqn:Hp;
      [| discriminate].
    intros H. econstructor; [| by apply IH].
    by apply placeLoop_outcome.
Qed.

Lemma placeLoop_square (random : nat → Q) (size : nat) (w : string)
    (g : Grid) (wd : list WordData) (left n : nat) g' wd' n' tries :
  square size g →
  placeLoop random left size w g wd n = Some (g', wd', n', tries) →
  square size g'.
Proof.
  intros Hsq Hp. apply placeLoop_outcome in Hp as (_ & _ & Hcase).
  destruct Hcase as [(k & ps & _ & Hv & _ & Hw & _) | (_ & _ & -> & _)];
    [| done].
  destruct (attempt_valid _ _ _ _ _ _ Hsq Hv) as (_ & Hnd & Hin & Hf & _).
  destruct (writeWord_spec size _ ps g Hsq Hin Hnd Hf)
    as (g'' & Hw' & Hsq' & _).
  congruence.
Qed.

Lemma placeWords_total (random : nat → Q) (size : nat) (ws : list string)
    g wd n :
  unitInterval random → square size g →
  ∃ out, placeWords random size ws g wd n = Some out.
Proof.
  intros Hu. revert g wd n. induction ws as [| w ws IH]; intros g wd n Hsq;
    cbn [placeWords]; [by eauto |].
  destruct (placeLoop_total random size (toUpperCase w) g wd 100 n Hu Hsq)
    as [[[[g1 wd1] n1] tries] Hp].
  rewrite Hp. apply IH. by eapply placeLoop_square.
Qed.

(** The word table grows by entries for some of the words, in list order,
    each unclaimed. *)
Lemma placeWords_invariant (random : nat → Q) (size : nat)
    (ws : list string) g wd n g' wd' n' :
  square size g → holds g wd →
  placeWords random size ws g wd n = Some (g', wd', n') →
  square size g' ∧ keeps g g' ∧ holds g' wd'
  ∧ ∃ placed, wd' = wd ++ placed
      ∧ sublist (map word placed) (map toUpperCase ws)
      ∧ Forall (fun w => foundBy w = None) placed.
Proof.
  revert g wd n. induction ws as [| w ws IH]; intros g wd n Hsq Hh;
    cbn [placeWords].
  - intros [= <- <- <-]. split; [done |]. split; [apply keeps_refl |].
    split; [done |]. exists []. rewrite app_nil_r.
    split; [done |]. split; constructor.
  - destruct (placeLoop _ _ _ _ _ _ _) as [[[[g1 wd1] n1] tries] |] eqn:Hp;
      [| discriminate].
    intros Hrest.
    destruct (placeLoop_invariant _ _ _ _ _ _ _ _ _ _ _ Hsq Hh Hp)
      as (Hsq1 & Hk1 & Hh1).
    destruct (IH _ _ _ Hsq1 Hh1 Hrest)
      as (Hsq' & Hk' & Hh' & placed & -> & Hsub & Hnone).
    split; [done |]. split; [by eapply keeps_trans |]. split; [done |].
    apply placeLoop_outcome in Hp as (_ & _ & Hcase).
    destruct Hcase as [(k & ps & _ & _ & _ & _ & ->) | (_ & _ & _ & ->)].
    + exists (mkWordData (toUpperCase w) None ps :: placed).
      rewrite <- app_assoc. split; [done |].
      split; [by apply sublist_skip |]. by constructor.
    + exists placed. split; [done |]. split; [by apply sublist_cons | done].
Qed.

(** ** Grid generator: the random fill *)

Lemma fillsTo_refl P g : fillsTo P g g.
Proof. intros r c s Hs. exists s. split; [done |]. split; [done | by left]. Qed.

Lemma fillsTo_trans P g1 g2 g3 :
  fillsTo P g1 g2 → fillsTo P g2 g3 → fillsTo P g1 g3.
Proof.
  intros H12 H23 r c s Hs.
  destruct (H12 _ _ _ Hs) as (s2 & Hs2 & Hk2 & Hn2).
  destruct (H23 _ _ _ Hs2) as (s3 & Hs3 & Hk3 & Hn3).
  exists s3. split; [done |]. split.
  - intros Hne. rewrite <- (Hk2 Hne). apply Hk3. by rewrite (Hk2 Hne).
  - intros He. destruct (Hn2 He) as [-> | [Hne HP]]; [by apply Hn3 |].
    right. rewrite (Hk3 Hne). done.
Qed.

Lemma fillsTo_keeps P g g' : fillsTo P g g' → keeps g g'.
Proof.
  intros H r c s Hs Hne. destruct (H _ _ _ Hs) as (s' & Hs' & Hk & _).
  by rewrite Hs', (Hk Hne).
Qed.

Lemma filledAt_fillsTo P g g' r c :
  fillsTo P g g' → filledAt g r c → filledAt g' r c.
Proof.
  intros H (s & Hs & Hne). exists s. split; [| done].
  by apply (fillsTo_keeps _ _ _ H).
Qed.

Section Fill.

Variable random : nat → Q.
Variable P : string → Prop.
Variable size : nat.

(** Every letter the fill can draw satisfies [P]. *)
Hypothesis drawn : ∀ k, P (fromCharCode (65 + randomInt 0 25 (random k))).

Lemma fillCell_spec (g : Grid) (r c n : nat) :
  square size g → (r < size)%nat → (c < size)%nat →
  ∃ g' n', fillCell random g r c n = Some (g', n')
           ∧ square size g' ∧ fillsTo P g g' ∧ filledAt g' r c.
Proof.
  intros Hsq Hr Hc. unfold fillCell.
  assert (inGrid size (Z.of_nat r, Z.of_nat c)) as Hin.
  { unfold inGrid. cbn [fst snd]. lia. }
  destruct (gridRead_inGrid size g _ Hsq Hin) as [s Hs].
  cbn [fst snd] in Hs. rewrite Hs. case_bool_decide as Hempty.
  - destruct (gridSet_inGrid size g _
                (fromCharCode (65 + randomInt 0 25 (random n))) Hsq Hin)
      as [g' Hg'].
    cbn [fst snd] in Hg'. rewrite Hg'. exists g', (S n).
    split; [done |]. split; [by eapply gridSet_square |]. split.
    + intros r' c' s' Hs'.
      rewrite (gridRead_gridSet _ _ _ _ r' c' _ Hg').
      case_bool_decide as Heq.
      * injection Heq as -> ->. rewrite Hs in Hs'. injection Hs' as <-.
        eexists. split; [done |]. split; [done |]. intros _. right.
        split; [discriminate | apply drawn].
      * exists s'. split; [done |]. split; [done | by left].
    + exists (fromCharCode (65 + randomInt 0 25 (random n))).
      split; [| discriminate].
      rewrite (gridRead_gridSet _ _ _ _ _ _ _ Hg').
      by rewrite bool_decide_eq_true_2.
  - exists g, n. split; [done |]. split; [done |].
    split; [apply fillsTo_refl |]. by exists s.
Qed.

Lemma fillRow_spec (cs : list nat) (g : Grid) (r n : nat) :
  square size g → (r < size)%nat → Forall (fun c => (c < size)%nat) cs →
  ∃ g' n', fillRow random g r cs n = Some (g', n')
           ∧ square size g' ∧ fillsTo P g g'
           ∧ ∀ c, c ∈ cs → filledAt g' r c.
Proof.
  intros Hsq Hr. revert g n Hsq.
  induction cs as [| c cs IH]; intros g n Hsq Hcs; cbn [fillRow].
  - exists g, n. split; [done |]. split; [done |].
    split; [apply fillsTo_refl |]. by intros c ?%elem_of_nil.
  - apply Forall_cons in Hcs as [Hc Hcs].
    destruct (fillCell_spec g r c n Hsq Hr Hc)
      as (g1 & n1 & -> & Hsq1 & Hf1 & Hfilled).
    destruct (IH g1 n1 Hsq1 Hcs) as (g' & n' & -> & Hsq' & Hf' & Hall).
    exists g', n'. split; [done |]. split; [done |].
    split; [by eapply fillsTo_trans |].
    intros c' [-> | Hc']%elem_of_cons; [| by apply Hall].
    by eapply filledAt_fillsTo.
Qed.

Lemma fillRows_spec (rs : list nat) (g : Grid) (n : nat) :
  square size g → Forall (fun r => (r < size)%nat) rs →
  ∃ g' n', fillRows random g size rs n = Some (g', n')
           ∧ square size g' ∧ fillsTo P g g'
           ∧ ∀ r c, r ∈ rs → (c < size)%nat → filledAt g' r c.
Proof.
  revert g n. induction rs as [| r rs IH]; intros g n Hsq Hrs;
    cbn [fillRows].
  - exists g, n. split; [done |]. split; [done |].
    split; [apply fillsTo_refl |]. by intros r c ?%elem_of_nil.
  - apply Forall_cons in Hrs as [Hr Hrs].
    destruct (fillRow_spec (seq 0 size) g r n Hsq Hr)
      as (g1 & n1 & -> & Hsq1 & Hf1 & Hrow).
    { apply Forall_seq. intros j Hj. lia. }
    destruct (IH g1 n1 Hsq1 Hrs) as (g' & n' & -> & Hsq' & Hf' & Hall).
    exists g', n'. split; [done |]. split; [done |].
    split; [by eapply fillsTo_trans |].
    intros r' c [-> | Hr']%elem_of_cons Hc; [| by apply Hall].
    eapply filledAt_fillsTo; [done |]. apply Hrow.
    apply elem_of_seq. lia.
Qed.

End Fill.

(** Membership of a square grid, through [gridRead]. *)
Lemma square_cells (size : nat) (g : Grid) (Q0 : string → Prop) :
  square size g →
  (∀ r c, (r < size)%nat → (c < size)%nat →
     ∃ s, gridRead g (Z.of_nat r) (Z.of_nat c) = Some (Some s) ∧ Q0 s) →
  Forall (Forall Q0) g.
Proof.
  intros [Hlen Hrows] H. apply Forall_lookup. intros r line Hline.
  apply Forall_lookup. intros c s Hs.
  pose proof (lookup_lt_Some _ _ _ Hline) as Hr.
  pose proof (lookup_lt_Some _ _ _ Hs) as Hc.
  rewrite Forall_lookup in Hrows. rewrite (Hrows _ _ Hline) in Hc.
  destruct (H r c) as (s' & Hs' & HQ); [lia | done |].
  unfold gridRead, js_index in Hs'.
  destruct (Z.ltb_spec (Z.of_nat r) 0); [lia |].
  destruct (Z.ltb_spec (Z.of_nat c) 0); [lia |].
  rewrite !Nat2Z.id, Hline in Hs'. congruence.
Qed.

(** ** Grid generator: the results *)

Lemma joinCells_chr (w : string) :
  joinCells (map chr (list_ascii_of_string w)) = w.
Proof.
  unfold joinCells. induction w as [| ch w IH]; cbn; [done | by rewrite IH].
Qed.

Lemma readCells_length (g : Grid) (ps : list Cell) cells :
  readCells g ps = Some cells → length ps = length cells.
Proof.
  revert cells. induction ps as [| [r c] ps IH]; intros cells;
    cbn [readCells].
  - by intros [= <-].
  - destruct (gridRead g r c) as [[s |] |]; try discriminate.
    destruct (readCells g ps) as [l |]; [| discriminate].
    intros [= <-]. cbn. f_equal. by apply IH.
Qed.

Lemma trivialDraw (random : nat → Q) :
  ∀ k : nat, (fun _ : string => True)
               (fromCharCode (65 + randomInt 0 25 (random k))).
Proof. done. Qed.

(** The shape of a successful run of [generateGrid]. *)
Lemma generateGrid_inv (random : nat → Q) (size : nat) (ws : list string)
    (n : nat) grid wd n' :
  generateGrid random size ws n = Some (grid, wd, n') →
  ∃ g1 n1,
    placeWords random size ws (replicate size (replicate size "")) [] n
      = Some (g1, wd, n1)
    ∧ fillRows random g1 size (seq 0 size) n1 = Some (grid, n')
    ∧ square size g1.
Proof.
  unfold generateGrid.
  destruct (placeWords _ _ _ _ _ _) as [[[g1 wd1] n1] |] eqn:Hp;
    [| discriminate].
  destruct (fillRows _ _ _ _ _) as [[g2 n2] |] eqn:Hf; [| discriminate].
  intros [= <- <- <-]. exists g1, n1. split; [done |]. split; [done |].
  by destruct (placeWords_invariant _ _ _ _ _ _ _ _ _
                 (square_replicate size) (Forall_nil_2 _) Hp) as [? _].
Qed.

(** C2.  In what [generateGrid] returns, the grid cells along the cell
    sequence of every entry of the word table are, in order, the letters
    of the entry's word, and their concatenation is that word, which is
    the upper-cased form of one of the words given. *)
Theorem generateGrid_reads_words (random : nat → Q) (size : nat)
    (ws : list string) (n : nat) grid wd n' :
  generateGrid random size ws n = Some (grid, wd, n') →
  ∀ w, w ∈ wd →
    readCells grid (positions w)
      = Some (map chr (list_ascii_of_string (word w)))
    ∧ readAlong grid (positions w) = Some (word w)
    ∧ length (positions w) = String.length (word w)
    ∧ word w ∈ map toUpperCase ws.
Proof.
  intros (g1 & n1 & Hp & Hf & Hsq1)%generateGrid_inv w Hw.
  destruct (placeWords_invariant _ _ _ _ _ _ _ _ _
              (square_replicate size) (Forall_nil_2 _) Hp)
    as (_ & _ & Hh & placed & Hpl & Hsub & _).
  cbn [app] in Hpl. subst placed.
  destruct (fillRows_spec random (fun _ => True) size (trivialDraw random)
              (seq 0 size) g1 n1 Hsq1) as (g2 & n2 & Hf' & _ & Hfill & _).
  { apply Forall_seq. intros j Hj. lia. }
  rewrite Hf in Hf'. injection Hf' as <- <-.
  apply fillsTo_keeps in Hfill.
  pose proof (holds_keeps _ _ _ Hfill Hh) as Hh'.
  unfold holds in Hh'. rewrite Forall_forall in Hh'.
  pose proof (Hh' w Hw) as Hread.
  split; [done |]. split; [| split].
  - unfold readAlong. by rewrite Hread, joinCells_chr.
  - rewrite (readCells_length _ _ _ Hread), length_map.
    apply length_list_ascii.
  - eapply elem_of_submseteq; [| by apply sublist_submseteq].
    by apply list_elem_of_fmap_2.
Qed.

(** With draws in the unit interval [generateGrid] returns. *)
Lemma generateGrid_total (random : nat → Q) (size : nat) (ws : list string)
    (n : nat) :
  unitInterval random →
  ∃ grid wd n', generateGrid random size ws n = Some (grid, wd, n').
Proof.
  intros Hu.
  destruct (placeWords_total random size ws
              (replicate size (replicate size "")) [] n Hu
              (square_replicate size)) as [[[g1 wd] n1] Hp].
  destruct (placeWords_invariant _ _ _ _ _ _ _ _ _
              (square_replicate size) (Forall_nil_2 _) Hp) as (Hsq1 & _).
  destruct (fillRows_spec random (fun _ => True) size (trivialDraw random)
              (seq 0 size) g1 n1 Hsq1) as (g2 & n2 & Hf & _).
  { apply Forall_seq. intros j Hj. lia. }
  exists g2, wd, n2. unfold generateGrid. by rewrite Hp, Hf.
Qed.

(** C9.  With draws in the unit interval [generateGrid] returns (it never
    raises): every word, in list order, goes through a loop of at most 100
    attempts in which the first valid attempt writes and records the word
    and after which a word with 100 failed attempts leaves grid and table
    as they were; the table lists some of the upper-cased words, in order,
    so it can be shorter than the word list. *)
Theorem generateGrid_never_raises (random : nat → Q) (size : nat)
    (ws : list string) (n : nat) :
  unitInterval random →
  ∃ grid wd n',
    generateGrid random size ws n = Some (grid, wd, n')
    ∧ (length wd <= length ws)%nat
    ∧ sublist (map word wd) (map toUpperCase ws)
    ∧ ∃ g1 n1,
        placedAll random size ws (replicate size (replicate size "")) [] n
          g1 wd n1.
Proof.
  intros Hu.
  destruct (generateGrid_total random size ws n Hu)
    as (grid & wd & n' & Hg).
  exists grid, wd, n'. split; [done |].
  apply generateGrid_inv in Hg as (g1 & n1 & Hp & _ & _).
  destruct (placeWords_invariant _ _ _ _ _ _ _ _ _
              (square_replicate size) (Forall_nil_2 _) Hp)
    as (_ & _ & _ & placed & Hpl & Hsub & _).
  cbn [app] in Hpl. subst placed. split.
  { apply sublist_length in Hsub. by rewrite !length_map in Hsub. }
  split; [done |]. exists g1, n1. by apply placeWords_placedAll.
Qed.

Lemma cellsIn_replicate (R : string → Prop) (size : nat) :
  cellsIn R (replicate size (replicate size "")).
Proof.
  intros r c s. unfold gridRead.
  destruct (js_index _ r) as [line |] eqn:Hl; [| discriminate].
  apply js_index_lookup in Hl as [_ Hl].
  apply lookup_replicate in Hl as [-> _].
  destruct (js_index _ c) as [s' |] eqn:Hs; [| discriminate].
  apply js_index_lookup in Hs as [_ Hs].
  apply lookup_replicate in Hs as [-> _]. intros [= <-]. by left.
Qed.

Lemma writeWord_cellsIn (R : string → Prop) (chars : list ascii)
    (ps : list Cell) (g g' : Grid) :
  Forall (fun ch => R (chr ch)) chars → cellsIn R g →
  writeWord g ps chars = Some g' → cellsIn R g'.
Proof.
  revert ps g. induction chars as [| ch rest IH]; intros ps g Hall Hg;
    cbn [writeWord].
  - by intros [= <-].
  - destruct ps as [| [r c] ps]; [discriminate |].
    destruct (gridSet g r c (chr ch)) as [g1 |] eqn:Hg1; [| discriminate].
    apply Forall_cons in Hall as [Hch Hall].
    apply IH; [done |]. intros r' c' s.
    rewrite (gridRead_gridSet _ _ _ _ r' c' _ Hg1).
    case_bool_decide; [| by apply Hg]. intros [= <-]. by right.
Qed.

Lemma placeWords_cellsIn (random : nat → Q) (R : string → Prop)
    (size : nat) (ws : list string) g wd n g' wd' n' :
  Forall (wordIn R) ws → cellsIn R g →
  placeWords random size ws g wd n = Some (g', wd', n') → cellsIn R g'.
Proof.
  revert g wd n. induction ws as [| w ws IH]; intros g wd n Hws Hg;
    cbn [placeWords].
  - by intros [= <- <- <-].
  - destruct (placeLoop _ _ _ _ _ _ _) as [[[[g1 wd1] n1] tries] |] eqn:Hp;
      [| discriminate].
    apply Forall_cons in Hws as [Hw Hws]. apply IH; [done |].
    apply placeLoop_outcome in Hp as (_ & _ & Hcase).
    destruct Hcase as [(k & ps & _ & _ & _ & Hwr & _) | (_ & _ & -> & _)];
      [| done].
    by eapply writeWord_cellsIn.
Qed.

(** Every cell of the grid returned holds a character of a placed word or
    a drawn letter. *)
Lemma generateGrid_cells (random : nat → Q) (R P : string → Prop)
    (size : nat) (ws : list string) (n : nat) grid wd n' :
  (∀ k, P (fromCharCode (65 + randomInt 0 25 (random k)))) →
  Forall (wordIn R) ws →
  generateGrid random size ws n = Some (grid, wd, n') →
  square size grid ∧ Forall (Forall (fun s => s ≠ "" ∧ (R s ∨ P s))) grid.
Proof.
  intros Hdrawn Hws (g1 & n1 & Hp & Hf & Hsq1)%generateGrid_inv.
  pose proof (placeWords_cellsIn _ R _ _ _ _ _ _ _ _ Hws
                (cellsIn_replicate R size) Hp) as Hin.
  destruct (fillRows_spec random P size Hdrawn (seq 0 size) g1 n1 Hsq1)
    as (g2 & n2 & Hf' & Hsq2 & Hfill & Hfilled).
  { apply Forall_seq. intros j Hj. lia. }
  rewrite Hf in Hf'. injection Hf' as <- <-.
  split; [done |]. apply (square_cells size); [done |].
  intros r c Hr Hc.
  destruct (Hfilled r c) as (s' & Hs' & Hne); [apply elem_of_seq; lia | done |].
  exists s'. split; [done |]. split; [done |].
  destruct (gridRead_inGrid size g1 (Z.of_nat r, Z.of_nat c) Hsq1)
    as [s Hs]; [unfold inGrid; cbn [fst snd]; lia |].
  cbn [fst snd] in Hs.
  destruct (Hfill _ _ _ Hs) as (s2 & Hs2 & Hkeep & Hnew).
  rewrite Hs' in Hs2. injection Hs2 as <-.
  destruct (decide (s = "")) as [He | Hn].
  - destruct (Hnew He) as [? | [_ HP]]; [done | by right].
  - rewrite (Hkeep Hn). destruct (Hin _ _ _ Hs); [done | by left].
Qed.

Lemma drawn_upperAZ (random : nat → Q) :
  unitInterval random →
  ∀ k, upperAZ (fromCharCode (65 + randomInt 0 25 (random k))).
Proof.
  intros Hu k. destruct (Hu k) as [H0 H1].
  pose proof (randomInt_range 0 25 (random k) H0 H1) as Hr.
  eexists. split; [reflexivity |].
  rewrite nat_ascii_embedding by lia. lia.
Qed.

Lemma toUpperCase_chars (w : string) :
  list_ascii_of_string (toUpperCase w)
  = map upper_ascii (list_ascii_of_string w).
Proof. induction w as [| ch w IH]; cbn; [done | by rewrite IH]. Qed.

Lemma upper_ascii_letter (ch : ascii) :
  isLetter ch → (65 <= nat_of_ascii (upper_ascii ch) <= 90)%nat.
Proof.
  unfold isLetter, upper_ascii. intros H.
  destruct (_ && _) eqn:E.
  - apply andb_true_iff in E as [E1 E2].
    apply Nat.leb_le in E1, E2. rewrite nat_ascii_embedding by lia. lia.
  - apply andb_false_iff in E. rewrite !Nat.leb_gt in E. lia.
Qed.

Lemma lettersOnly_wordIn (w : string) : lettersOnly w → wordIn upperAZ w.
Proof.
  unfold lettersOnly, wordIn. rewrite toUpperCase_chars, Forall_fmap.
  intros H. eapply Forall_impl; [exact H |].
  intros ch Hch. exists (upper_ascii ch).
  split; [done | by apply upper_ascii_letter].
Qed.

(** C7, amended.  With draws in the unit interval, [generateGrid] returns
    a grid of [size] rows of [size] cells in which every cell holds exactly
    one character: a character of an upper-cased word or a drawn letter
    A-Z.  When the words are made of letters only, every cell holds one
    letter A-Z. *)
Theorem generateGrid_cells_filled (random : nat → Q) (size : nat)
    (ws : list string) (n : nat) :
  unitInterval random →
  ∃ grid wd n',
    generateGrid random size ws n = Some (grid, wd, n')
    ∧ square size grid
    ∧ Forall (Forall oneChar) grid
    ∧ Forall (Forall (fun s => fromWords ws s ∨ upperAZ s)) grid
    ∧ (Forall lettersOnly ws → Forall (Forall upperAZ) grid).
Proof.
  intros Hu.
  destruct (generateGrid_total random size ws n Hu)
    as (grid & wd & n' & Hg).
  exists grid, wd, n'. split; [done |].
  destruct (generateGrid_cells random (fromWords ws) upperAZ size ws n
              grid wd n' (drawn_upperAZ random Hu)) as [Hsq Hall]; [| done |].
  { apply Forall_forall. intros w Hw. apply Forall_forall. intros ch Hch.
    by exists w, ch. }
  split; [done |]. split; [| split].
  - eapply Forall_impl; [exact Hall |]. intros line Hline.
    eapply Forall_impl; [exact Hline |].
    intros s [_ [(_ & ch & _ & _ & ->) | (ch & -> & _)]]; by exists ch.
  - eapply Forall_impl; [exact Hall |]. intros line Hline.
    eapply Forall_impl; [exact Hline |]. by intros s [_ Hs].
  - intros Hletters.
    destruct (generateGrid_cells random upperAZ upperAZ size ws n grid wd n'
                (drawn_upperAZ random Hu)) as [_ Hall']; [| done |].
    { eapply Forall_impl; [exact Hletters |]. apply lettersOnly_wordIn. }
    eapply Forall_impl; [exact Hall' |]. intros line Hline.
    eapply Forall_impl; [exact Hline |]. by intros s [_ [Hs | Hs]].
Qed.

(** ** Grid generator: the anchor *)

(** In a direction without a negative component the anchor is drawn so
    that the whole word lies in the grid. *)
Lemma drawAnchor_fits_forward (random : nat → Q) (size len : nat)
    (dir : Z * Z) (n : nat) :
  unitInterval random → (1 <= len <= size)%nat →
  0 <= dir.1 <= 1 → 0 <= dir.2 <= 1 →
  let '(row, col) := drawAnchor random (Z.of_nat size) (Z.of_nat len) dir n in
  Forall (inGrid size) (cellsOf row col dir 0 len).
Proof.
  intros Hu Hlen H1 H2. unfold drawAnchor.
  destruct (Hu n) as [Ha Hb]. destruct (Hu (n + 1)%nat) as [Hc Hd].
  assert (0 <= anchorBound (Z.of_nat size) (Z.of_nat len) dir.1) as Hb1.
  { unfold anchorBound.
    destruct (Z.eqb_spec dir.1 1), (Z.eqb_spec dir.1 (-1)); lia. }
  assert (0 <= anchorBound (Z.of_nat size) (Z.of_nat len) dir.2) as Hb2.
  { unfold anchorBound.
    destruct (Z.eqb_spec dir.2 1), (Z.eqb_spec dir.2 (-1)); lia. }
  pose proof (randomInt_range 0 _ (random n) Ha Hb Hb1) as Hrow.
  pose proof (randomInt_range 0 _ (random (n + 1)%nat) Hc Hd Hb2) as Hcol.
  revert Hrow Hcol.
  generalize (randomInt 0 (anchorBound (Z.of_nat size) (Z.of_nat len) dir.1)
                (random n)).
  generalize (randomInt 0 (anchorBound (Z.of_nat size) (Z.of_nat len) dir.2)
                (random (n + 1)%nat)).
  intros col row Hrow Hcol. unfold anchorBound in Hrow, Hcol.
  apply Forall_forall. intros p (j & Hj & ->)%cellsOf_elem.
  unfold inGrid. cbn [fst snd].
  destruct (Z.eqb_spec dir.1 1), (Z.eqb_spec dir.1 (-1)),
    (Z.eqb_spec dir.2 1), (Z.eqb_spec dir.2 (-1)); nia.
Qed.

(** C3, as the code has it.  For the Easy grid (size 8) and the word CAT,
    with draws that pick the direction "up", the anchor is drawn from rows
    0 to 4 and may be row 0: the second and third cell of the word then lie
    above the grid, and the attempt is rejected by the bounds test of the
    validity loop. *)
Theorem drawAnchor_overflows :
  unitInterval upOracle
  ∧ js_index DIRECTIONS
      (randomInt 0 (Z.of_nat (length DIRECTIONS) - 1) (upOracle 0))
    = Some (-1, 0)
  ∧ anchorBound 8 3 (-1) = 4
  ∧ drawAnchor upOracle 8 3 (-1, 0) 1 = (0, 0)
  ∧ cellsOf 0 0 (-1, 0) 0 3 = [(0, 0); (-1, 0); (-2, 0)]
  ∧ ¬ Forall (inGrid 8) (cellsOf 0 0 (-1, 0) 0 3)
  ∧ attempt upOracle 8 (replicate 8 (replicate 8 "")) "CAT" 0 = Some None.
Proof.
  split.
  { intros [| n]; split; cbn; unfold Qle, Qlt; cbn; lia. }
  split; [reflexivity |]. split; [reflexivity |]. split; [reflexivity |].
  split; [reflexivity |]. split; [| reflexivity].
  intros H. cbn [cellsOf] in H.
  apply Forall_cons in H as [_ H]. apply Forall_cons in H as [[H _] _].
  cbn in H. lia.
Qed.

Lemma unitInterval_zero : unitInterval zeroOracle.
Proof. intros n. split; unfold zeroOracle, Qle, Qlt; cbn; lia. Qed.

(** ** Grid generator: instances *)

Lemma generateGrid_reads_words_witness :
  readAlong
    [["C"; "A"; "T"; "A"]; ["A"; "A"; "A"; "A"]; ["A"; "A"; "A"; "A"];
     ["A"; "A"; "A"; "A"]]
    [(0, 0); (0, 1); (0, 2)] = Some "CAT".
Proof.
  apply (generateGrid_reads_words zeroOracle 4 ["cat"; "dog"] 0
           [["C"; "A"; "T"; "A"]; ["A"; "A"; "A"; "A"];
            ["A"; "A"; "A"; "A"]; ["A"; "A"; "A"; "A"]]
           [mkWordData "CAT" None [(0, 0); (0, 1); (0, 2)]] 316%nat
           ltac:(vm_compute; reflexivity)
           (mkWordData "CAT" None [(0, 0); (0, 1); (0, 2)])).
  apply list_elem_of_here.
Defined.

Lemma generateGrid_never_raises_witness :
  ∃ grid wd n',
    generateGrid zeroOracle 4 ["cat"; "dog"] 0 = Some (grid, wd, n')
    ∧ (length wd <= 2)%nat.
Proof.
  destruct (generateGrid_never_raises zeroOracle 4 ["cat"; "dog"] 0
              unitInterval_zero) as (grid & wd & n' & Hg & Hlen & _).
  exists grid, wd, n'. split; [exact Hg | exact Hlen].
Defined.

Lemma generateGrid_cells_filled_witness :
  ∃ grid wd n',
    generateGrid zeroOracle 4 ["cat"; "dog"] 0 = Some (grid, wd, n')
    ∧ Forall (Forall upperAZ) grid.
Proof.
  destruct (generateGrid_cells_filled zeroOracle 4 ["cat"; "dog"] 0
              unitInterval_zero) as (grid & wd & n' & Hg & _ & _ & _ & Hup).
  exists grid, wd, n'. split; [exact Hg |]. apply Hup.
  repeat (apply Forall_cons_2); try apply Forall_nil_2;
    unfold lettersOnly; cbn [list_ascii_of_string];
    repeat (apply Forall_cons_2); try apply Forall_nil_2;
    right; vm_compute; lia.
Defined.

(** C7 as stated fails: a word with a character that is not a letter,
    here the space of ICE CREAM, is written into the grid as it is. *)
Lemma generateGrid_cells_counterexample :
  unitInterval zeroOracle
  ∧ ∃ grid wd n',
      generateGrid zeroOracle 10 ["ICE CREAM"] 0 = Some (grid, wd, n')
      ∧ gridRead grid 0 3 = Some (Some " ")
      ∧ ¬ Forall (Forall upperAZ) grid.
Proof.
  split; [apply unitInterval_zero |].
  destruct (generateGrid zeroOracle 10 ["ICE CREAM"] 0)
    as [[[grid wd] n'] |] eqn:Hg; [| by vm_compute in Hg].
  exists grid, wd, n'. split; [done |].
  vm_compute in Hg. injection Hg as <- <- <-.
  split; [reflexivity |]. intros H.
  apply Forall_cons in H as [H _].
  do 3 apply Forall_cons in H as [_ H]. apply Forall_cons in H as [H _].
  destruct H as (ch & [= <-] & Hch). vm_compute in Hch. lia.
Qed.

(** ** Session: claims *)

Lemma unitInterval_scripted (d : Q) :
  (0 <= d)%Q → (d < 1)%Q → unitInterval (scripted d).
Proof.
  intros H0 H1 n. unfold scripted.
  do 30 (destruct n as [| n]; [split; vm_compute; congruence |]).
  unfold easyScript. cbn [nth]. by destruct n.
Qed.

Lemma unitInterval_replayed : unitInterval replayed.
Proof. intros n. by apply unitInterval_scripted. Qed.

(** C1, as the code has it.  In the Easy game [idleFinish] the draws are in
    the unit interval; after nine words found by the player the game is
    being played with STAR unclaimed; the rival's tick claims nothing, yet
    its test [foundWords.length + 1 >= wordList.length] schedules the end
    of the game, and the game is [completed] with STAR still unclaimed. *)
Theorem completed_with_unclaimed_word :
  unitInterval (scripted (1 # 2))
  ∧ (let s := run (scripted (1 # 2)) initialState idleFinish in
     gameState s = completed
     ∧ unfound (wordList s)
       = [mkWordData "STAR" None [(1, 4); (1, 5); (1, 6); (1, 7)]]
     ∧ length (wordList s) = 10%nat
     ∧ playerScore s = 9%nat ∧ aiScore s = 0%nat).
Proof.
  split; [apply unitInterval_scripted; done |].
  vm_compute. repeat split; reflexivity.
Qed.

(** C4, as the code has it.  In [restartRace] the draws are in the unit
    interval; when the rival's timeout has run, CAT is claimed by the rival
    in the new game; when the player's timeout runs next, the same entry is
    claimed by the player, and both scores count the one word. *)
Theorem stale_timeout_reclaims :
  unitInterval replayed
  ∧ (let s1 := run replayed initialState restartRace in
     let s2 := step replayed s1 (TimeoutFires 0) in
     wordList s1 !! 0%nat
       = Some (mkWordData "CAT" (Some ai) [(0, 0); (0, 1); (0, 2)])
     ∧ wordList s2 !! 0%nat
       = Some (mkWordData "CAT" (Some player) [(0, 0); (0, 1); (0, 2)])
     ∧ aiScore s2 = 1%nat ∧ playerScore s2 = 1%nat
     ∧ foundWords s2
       = [mkFoundWord "CAT" ai [(0, 0); (0, 1); (0, 2)];
          mkFoundWord "CAT" player [(0, 0); (0, 1); (0, 2)]]).
Proof.
  split; [apply unitInterval_replayed |].
  vm_compute. repeat split; reflexivity.
Qed.

(** The rival's candidates are unclaimed, and the rival picks one of
    them. *)
Lemma unfound_unclaimed (wl : list WordData) (w : WordData) :
  w ∈ unfound wl ↔ w ∈ wl ∧ foundBy w = None.
Proof. unfold unfound. rewrite list_elem_of_filter. tauto. Qed.

Lemma insertByLength_elem (x y : WordData) (l : list WordData) :
  y ∈ insertByLength x l ↔ y = x ∨ y ∈ l.
Proof.
  induction l as [| z l IH]; cbn [insertByLength].
  - rewrite list_elem_of_singleton, elem_of_nil. tauto.
  - destruct (_ <? _)%nat; rewrite !elem_of_cons; [rewrite IH |]; tauto.
Qed.

Lemma sortByLengthDesc_elem (y : WordData) (l : list WordData) :
  y ∈ sortByLengthDesc l ↔ y ∈ l.
Proof.
  unfold sortByLengthDesc. induction l as [| x l IH]; cbn [foldr]; [done |].
  by rewrite insertByLength_elem, IH, elem_of_cons.
Qed.

Lemma chooseWord_unclaimed (random : nat → Q) (dif : Difficulty)
    (wl : list WordData) (n n' : nat) (chosen : WordData) :
  chooseWord random dif (unfound wl) n = (Some chosen, n') →
  chosen ∈ wl ∧ foundBy chosen = None.
Proof.
  intros H. apply unfound_unclaimed. unfold chooseWord in H.
  destruct (bool_decide _); [destruct (Qltb _ _) |]; injection H as H _.
  - apply sortByLengthDesc_elem. destruct (sortByLengthDesc _); [done |].
    injection H as <-. apply list_elem_of_here.
  - apply js_index_lookup in H as [_ H]. by eapply list_elem_of_lookup_2.
  - apply js_index_lookup in H as [_ H]. by eapply list_elem_of_lookup_2.
Qed.

(** The write of a claim looks at the word only: it marks every entry of
    that word, claimed or not, and leaves the other entries alone. *)
Lemma markFound_lookup (w : string) (by_ : Finder) (wl : list WordData)
    (i : nat) (wd : WordData) :
  wl !! i = Some wd →
  markFound w by_ wl !! i
  = Some (if bool_decide (word wd = w)
          then mkWordData (word wd) (Some by_) (positions wd) else wd).
Proof. intros H. unfold markFound. by rewrite list_lookup_fmap, H. Qed.

Lemma selection_stays_straight_witness :
  straightFrom (0, 0)
    (selected
       (run zeroOracle (run zeroOracle initialState [ClickStartGame])
          (CellMouseDown 0 0
           :: map (fun p => CellMouseEnter p.1 p.2) [(0, 2); (3, 1); (2, 2)]))).
Proof.
  apply (selection_stays_straight zeroOracle [ClickStartGame] 0 0
           [(0, 2); (3, 1); (2, 2)]).
  vm_compute. reflexivity.
Defined.

(** ** Session: claims within one game

    As long as no new game is started, a claimed entry stays as it is. *)

Lemma claimsKept_refl (wl : list WordData) : claimsKept wl wl.
Proof. by intros i wd. Qed.

Lemma claimsKept_trans (wl1 wl2 wl3 : list WordData) :
  claimsKept wl1 wl2 → claimsKept wl2 wl3 → claimsKept wl1 wl3.
Proof. intros H1 H2 i wd Hi Hf. apply H2; [| done]. by apply H1. Qed.

Lemma markFound_elem (w : string) (by_ : Finder) (wl : list WordData)
    (wd' : WordData) :
  wd' ∈ markFound w by_ wl →
  ∃ wd, wd ∈ wl ∧ word wd' = word wd
        ∧ (word wd = w → foundBy wd' = Some by_)
        ∧ (word wd ≠ w → wd' = wd).
Proof.
  unfold markFound. intros (wd & -> & Hwd)%list_elem_of_fmap.
  exists wd. split; [done |]. case_bool_decide; cbn; split; done.
Qed.

Lemma claimsInv_add_finish (wl : list WordData) (ts : list Timeout) :
  claimsInv wl ts → claimsInv wl (ts ++ [Finish]).
Proof.
  unfold claimsInv. rewrite omap_app. cbn. by rewrite app_nil_r.
Qed.

Lemma claimsInv_add_claim (wl : list WordData) (ts : list Timeout)
    (t : Timeout) (w : string) :
  claimsInv wl ts → omap claimWord ts = [] → claimWord t = Some w →
  (∀ wd, wd ∈ wl → word wd = w → foundBy wd = None) →
  claimsInv wl (ts ++ [t]).
Proof.
  intros (HA & _ & _) Hnone Ht Hw. unfold claimsInv.
  rewrite omap_app, Hnone. cbn. rewrite Ht. cbn.
  split; [done |]. split; [lia |].
  intros w' wd ->%list_elem_of_singleton. apply Hw.
Qed.

Lemma omap_delete_finish (ts : list Timeout) (k : nat) :
  ts !! k = Some Finish →
  omap claimWord (delete k ts) = omap claimWord ts.
Proof.
  intros Hk. rewrite <- (take_drop_middle ts k Finish Hk) at 2.
  by rewrite delete_take_drop, !omap_app.
Qed.

Lemma omap_delete_claim (ts : list Timeout) (k : nat) (t : Timeout)
    (w : string) :
  ts !! k = Some t → claimWord t = Some w →
  (length (omap claimWord ts) <= 1)%nat →
  omap claimWord (delete k ts) = [] ∧ w ∈ omap claimWord ts.
Proof.
  intros Hk Ht. rewrite <- (take_drop_middle ts k t Hk) at 1 3.
  rewrite delete_take_drop, !omap_app. cbn. rewrite Ht. cbn.
  rewrite !length_app. cbn. intros Hlen.
  destruct (omap claimWord (take k ts)); [| cbn in Hlen; lia].
  destruct (omap claimWord (drop (S k) ts)); [| cbn in Hlen; lia].
  split; [done |]. apply list_elem_of_here.
Qed.

(** A claim that was pending under the invariant marks unclaimed entries
    only. *)
Lemma claimsInv_fire (wl : list WordData) (ts : list Timeout) (k : nat)
    (t : Timeout) (w : string) (by_ : Finder) :
  claimsInv wl ts → ts !! k = Some t → claimWord t = Some w →
  claimsInv (markFound w by_ wl) (delete k ts)
  ∧ omap claimWord (delete k ts) = []
  ∧ claimsKept wl (markFound w by_ wl).
Proof.
  intros (HA & Hlen & HC) Hk Ht.
  destruct (omap_delete_claim ts k t w Hk Ht Hlen) as [Hnone Hin].
  split; [| split; [done |]].
  - unfold claimsInv. rewrite Hnone. split; [| split; [cbn; lia |]].
    + intros w1 w2 (v1 & Hv1 & Hw1 & Hm1 & Hk1)%markFound_elem
        (v2 & Hv2 & Hw2 & Hm2 & Hk2)%markFound_elem Heq.
      destruct (decide (word v1 = w)) as [E1 | E1];
        destruct (decide (word v2 = w)) as [E2 | E2].
      * by rewrite Hm1, Hm2.
      * congruence.
      * congruence.
      * rewrite (Hk1 E1), (Hk2 E2). apply HA; [done | done | congruence].
    + by intros w' wd ?%elem_of_nil.
  - intros i wd Hi Hf. rewrite (markFound_lookup _ _ _ _ _ Hi).
    case_bool_decide as Hw; [| done]. exfalso. apply Hf.
    apply (HC w wd); [done | by eapply list_elem_of_lookup_2 | done].
Qed.

Lemma gameInv_aiEffect s :
  claimsInv (wordList s) (timeouts s) →
  (gameState s = playing → omap claimWord (timeouts s) = []) →
  gameInv (aiEffect s).
Proof.
  intros Hc Hp. split; [done |]. split; [done |].
  cbn. by intros ?%bool_decide_eq_true.
Qed.

Lemma gameInv_gameEndEffect s : gameInv s → gameInv (gameEndEffect s).
Proof.
  intros (Hc & Hp & Hi). unfold gameEndEffect.
  destruct (_ && _); [| done]. split; [done |]. split; [done |].
  cbn. by intros ?%bool_decide_eq_true.
Qed.

Lemma wordList_gameEndEffect s : wordList (gameEndEffect s) = wordList s.
Proof. unfold gameEndEffect. by destruct (_ && _). Qed.

Lemma gameInv_finishCheck wl fw s :
  gameInv s → gameInv (finishCheck wl fw s).
Proof.
  intros (Hc & Hp & Hi). unfold finishCheck.
  destruct (_ || _); [| done]. split; [| split].
  - by apply claimsInv_add_finish.
  - cbn. rewrite omap_app. cbn. rewrite app_nil_r. done.
  - done.
Qed.

Lemma finishCheck_frame wl fw s :
  gameState (finishCheck wl fw s) = gameState s
  ∧ omap claimWord (timeouts (finishCheck wl fw s))
    = omap claimWord (timeouts s)
  ∧ (claimsInv (wordList s) (timeouts s) →
     claimsInv (wordList (finishCheck wl fw s))
       (timeouts (finishCheck wl fw s))).
Proof.
  unfold finishCheck. destruct (_ || _); [| done]. cbn.
  split; [done |]. split; [| apply claimsInv_add_finish].
  rewrite omap_app. cbn. by rewrite app_nil_r.
Qed.

Lemma wordList_finishCheck wl fw s :
  wordList (finishCheck wl fw s) = wordList s.
Proof. unfold finishCheck. by destruct (_ || _). Qed.

(** The event changed neither the word table nor what the invariant
    speaks of. *)
Ltac unchanged := split; [assumption | apply claimsKept_refl].

(** One event other than the start of a new game keeps the invariant and
    every claimed entry. *)
Lemma step_within_game (random : nat → Q) (s : State) (e : Event) :
  gameInv s → e ≠ ClickStartGame →
  gameInv (step random s e)
  ∧ claimsKept (wordList s) (wordList (step random s e)).
Proof.
  intros Hinv He. pose proof Hinv as (Hc & Hp & Hi).
  destruct e; cbn [step]; try done.
  - (* ClickDifficulty *)
    destruct (bool_decide (gameState s = setup)); [| unchanged].
    destruct (bool_decide _); [unchanged |].
    split; [| apply claimsKept_refl]. by apply gameInv_aiEffect.
  - (* ClickMainMenu *)
    destruct (bool_decide _); [| unchanged].
    split; [| apply claimsKept_refl]. apply gameInv_aiEffect; [done |].
    discriminate.
  - (* CellMouseDown *)
    destruct (bool_decide _); [| unchanged]. unfold handleCellMouseDown.
    destruct (bool_decide _); unchanged.
  - (* CellMouseEnter *)
    destruct (bool_decide _); [| unchanged]. unfold handleCellMouseEnter.
    destruct (_ || _); [unchanged |].
    destruct (selected s) as [| [? ?] ?]; [unchanged |].
    destruct (getLine _ _); unchanged.
  - (* GridMouseUp *)
    destruct (bool_decide _); [| unchanged]. unfold handleCellMouseUp.
    destruct (bool_decide (gameState s ≠ playing)) eqn:Hg; [unchanged |].
    apply bool_decide_eq_false in Hg.
    assert (gameState s = playing) as Hplay
      by (destruct (decide (gameState s = playing)); [done | by destruct Hg]).
    cbn [orb]. destruct (_ <? _)%nat; [unchanged |].
    destruct (getSelectedWord _ _) as [wd |] eqn:Hsel; [| unchanged].
    destruct (bool_decide _); [| unchanged].
    apply getSelectedWord_Some in Hsel as (Hin & Hnone & _).
    split; [| apply claimsKept_refl]. apply gameInv_aiEffect; [| discriminate].
    cbn. eapply claimsInv_add_claim; [done | by apply Hp | done |].
    intros wd' Hwd' Heq. destruct Hc as (HA & _).
    rewrite (HA wd' wd); done.
  - (* GridMouseLeave *)
    destruct (bool_decide _); unchanged.
  - (* IntervalTick *)
    destruct (intervalOn s) eqn:Hon; [| unchanged]. unfold intervalTick.
    destruct (bool_decide _); [unchanged |].
    destruct (Qltb _ _);
      [| split; [by apply gameInv_finishCheck
                | rewrite wordList_finishCheck; apply claimsKept_refl]].
    destruct (_ <? _)%nat;
      [| split; [by apply gameInv_finishCheck
                | rewrite wordList_finishCheck; apply claimsKept_refl]].
    destruct (chooseWord _ _ _ _) as [[chosen |] n'] eqn:Hch; [| unchanged].
    apply chooseWord_unclaimed in Hch as [Hin Hnone].
    split; [| cbn; rewrite wordList_finishCheck; apply claimsKept_refl].
    match goal with
    | |- gameInv (aiEffect (finishCheck ?wl ?fw ?s')) =>
        destruct (finishCheck_frame wl fw s') as (Hg' & Hpend & Hcl)
    end.
    apply gameInv_aiEffect.
    + apply Hcl. cbn.
      eapply claimsInv_add_claim; [done | by auto | done |].
      intros wd' Hwd' Heq. destruct Hc as (HA & _).
      rewrite (HA wd' chosen); done.
    + rewrite Hg'. discriminate.
  - (* TimeoutFires *)
    destruct (timeouts s !! k) as [t |] eqn:Hk; [| unchanged].
    destruct t as [w ps | chosen |]; cbn [runTimeout].
    + destruct (claimsInv_fire _ _ k _ w player Hc Hk eq_refl)
        as (Hc' & Hnone & Hkept).
      split; [| by rewrite wordList_gameEndEffect].
      apply gameInv_gameEndEffect, gameInv_aiEffect; done.
    + destruct (claimsInv_fire _ _ k _ (word chosen) ai Hc Hk eq_refl)
        as (Hc' & Hnone & Hkept).
      split; [| by rewrite wordList_gameEndEffect].
      apply gameInv_gameEndEffect, gameInv_aiEffect; done.
    + assert (claimsInv (wordList s) (delete k (timeouts s))) as Hc'.
      { destruct Hc as (HA & Hlen & HC). unfold claimsInv.
        by rewrite (omap_delete_finish _ _ Hk). }
      case_bool_decide as Hg; cbn in Hg.
      * split; [| apply claimsKept_refl]. split; [done |].
        cbn. split; [rewrite Hg; discriminate | done].
      * split; [| apply claimsKept_refl].
        apply gameInv_aiEffect; [done | discriminate].
Qed.

(** Within one game, once an entry is claimed it is never changed: from a
    state with nothing inconsistent pending (the state reached by
    [startGame] from a state without pending claims is one), whatever
    happens short of a new game leaves every claimed entry as it is. *)
Lemma claims_final_within_game (random : nat → Q) (es : list Event)
    (s : State) :
  gameInv s → Forall (fun e => e ≠ ClickStartGame) es →
  gameInv (run random s es)
  ∧ claimsKept (wordList s) (wordList (run random s es)).
Proof.
  revert s. induction es as [| e es IH]; intros s Hinv Hes.
  - split; [done | apply claimsKept_refl].
  - apply Forall_cons in Hes as [He Hes]. cbn [run fold_left].
    destruct (step_within_game random s e Hinv He) as [Hinv' Hk].
    destruct (IH _ Hinv' Hes) as [Hinv'' Hk'].
    split; [done | by eapply claimsKept_trans].
Qed.

(** A game started while no claim is pending starts under the
    invariant. *)
Lemma startGame_gameInv (random : nat → Q) (dif : Difficulty) (s : State) :
  unitInterval random → omap claimWord (timeouts s) = [] →
  gameInv (startGame random dif s).
Proof.
  intros Hu Hnone. unfold startGame.
  destruct (generateGrid_total random (gridSize (DIFFICULTY_CONFIG dif))
              (words (DIFFICULTY_CONFIG dif)) (draws s) Hu)
    as (g & wd & n & Hgen).
  rewrite Hgen.
  apply gameInv_gameEndEffect, gameInv_aiEffect; [| done]. cbn.
  apply generateGrid_inv in Hgen as (g1 & n1 & Hp & _ & _).
  destruct (placeWords_invariant _ _ _ _ _ _ _ _ _
              (square_replicate _) (Forall_nil_2 _) Hp)
    as (_ & _ & _ & placed & Hpl & _ & Hall).
  cbn [app] in Hpl. subst placed. rewrite Forall_forall in Hall.
  unfold claimsInv. rewrite Hnone. split; [| split; [cbn; lia |]].
  - intros w1 w2 H1 H2 _. by rewrite (Hall _ H1), (Hall _ H2).
  - by intros w wd' ?%elem_of_nil.
Qed.

(** * The other functions of the page *)

(** ** [randomInt], [arraysEqual], [getLine], [getSelectedWord] *)

(** X1.  [randomInt(a, b)] with [a <= b] and a draw in the unit interval
    is an integer from [a] to [b], both included. *)
Theorem randomInt_between (a b : Z) (u : Q) :
  (0 <= u)%Q → (u < 1)%Q → a <= b → a <= randomInt a b u <= b.
Proof. apply randomInt_range. Qed.

Lemma randomInt_between_witness : 0 <= randomInt 0 7 (3 # 8) <= 7.
Proof.
  apply (randomInt_between 0 7 (3 # 8)); [by vm_compute | by vm_compute | lia].
Defined.

(** X2.  [arraysEqual] answers true exactly for two sequences of the same
    cells in the same order. *)
Theorem arraysEqual_true_iff (a b : list Cell) :
  arraysEqual a b = true ↔ a = b.
Proof. apply arraysEqual_spec. Qed.

Lemma rev_map_seq {B : Type} (f : nat → B) (m : nat) :
  rev (map f (seq 0 m)) = map (fun i => f (m - 1 - i)%nat) (seq 0 m).
Proof.
  induction m as [| m IH]; [done |].
  rewrite (seq_S m 0) at 1. rewrite map_app, rev_app_distr.
  cbn [map rev app plus]. rewrite IH. cbn [seq map].
  f_equal; [f_equal; lia |].
  rewrite <- seq_shift, map_map. apply map_ext. intros i. f_equal. lia.
Qed.

Lemma getLine_swap (a b : Cell) :
  getLine b a = match getLine a b with
                | Some l => Some (rev l)
                | None => None
                end.
Proof.
  destruct (getLine a b) as [l |] eqn:Hab.
  - assert (straightPair a b) as Hs by (apply getLine_Some_iff; eauto).
    assert (is_Some (getLine b a)) as [l' Hba].
    { apply getLine_Some_iff. unfold straightPair in *.
      rewrite <- (Z.abs_opp (a.1 - b.1)), <- (Z.abs_opp (a.2 - b.2)).
      replace (- (a.1 - b.1)) with (b.1 - a.1) by lia.
      replace (- (a.2 - b.2)) with (b.2 - a.2) by lia. lia. }
    rewrite Hba. f_equal.
    apply getLine_Some in Hab as ->. apply getLine_Some in Hba as ->.
    pose proof (lineFrom_reaches a b Hs) as Hlast.
    rewrite lineFrom_last in Hlast. injection Hlast as Hb.
    assert (stepsBetween b a = stepsBetween a b) as ->.
    { unfold stepsBetween. f_equal.
      rewrite <- (Z.abs_opp (a.1 - b.1)), <- (Z.abs_opp (a.2 - b.2)).
      f_equal; f_equal; lia. }
    unfold lineFrom at 2. rewrite rev_map_seq. unfold lineFrom.
    apply map_ext_in. intros i Hi%in_seq.
    replace (S (stepsBetween a b) - 1 - i)%nat
      with (stepsBetween a b - i)%nat by lia.
    set (n := stepsBetween a b) in *.
    assert ((stepTowards b a).1 = - (stepTowards a b).1
            ∧ (stepTowards b a).2 = - (stepTowards a b).2) as [H1 H2].
    { unfold stepTowards. cbn [fst snd]. rewrite <- !Z.sgn_opp.
      split; f_equal; lia. }
    rewrite H1, H2, Nat2Z.inj_sub by lia.
    destruct a as [r1 c1], b as [r2 c2]. cbn [fst snd] in *.
    injection Hb as Hb1 Hb2. unfold stepTowards. cbn [fst snd].
    f_equal; nia.
  - destruct (getLine b a) as [l' |] eqn:Hba; [| done].
    assert (is_Some (getLine a b)) as [l Hl]; [| congruence].
    apply getLine_Some_iff.
    assert (straightPair b a) as Hs by (apply getLine_Some_iff; eauto).
    unfold straightPair in *.
    rewrite <- (Z.abs_opp (b.1 - a.1)), <- (Z.abs_opp (b.2 - a.2)).
    replace (- (b.1 - a.1)) with (a.1 - b.1) by lia.
    replace (- (b.2 - a.2)) with (a.2 - b.2) by lia. lia.
Qed.

(** X3.  The line from [b] to [a] is the line from [a] to [b] reversed,
    and there is none one way exactly when there is none the other way. *)
Theorem getLine_reverse (a b : Cell) :
  getLine b a = match getLine a b with
                | Some l => Some (rev l)
                | None => None
                end.
Proof. apply getLine_swap. Qed.

(** X4.  When several unclaimed entries have the selected cells, forwards
    or reversed, [getSelectedWord] returns the one that comes first in the
    word list. *)
Theorem getSelectedWord_first (wl : list WordData) (ps : list Cell)
    (wd : WordData) :
  getSelectedWord wl ps = Some wd →
  ∃ i, wl !! i = Some wd
       ∧ ∀ j w, (j < i)%nat → wl !! j = Some w →
           ¬ (foundBy w = None ∧ (positions w = ps ∨ rev (positions w) = ps)).
Proof.
  induction wl as [| w0 wl IH]; [done |]. cbn [getSelectedWord].
  destruct (matchesSelection ps w0) eqn:E.
  - intros [= <-]. exists 0%nat. split; [done |]. intros j w Hj. lia.
  - intros H. destruct (IH H) as (i & Hi & Hbefore). exists (S i).
    split; [done |]. intros [| j] w Hj Hw.
    + cbn in Hw. injection Hw as <-.
      rewrite <- matchesSelection_spec, E. discriminate.
    + apply (Hbefore j); [lia | done].
Qed.

Lemma getSelectedWord_first_witness :
  ∃ i, [mkWordData "TOP" None [(0, 0); (0, 1); (0, 2)];
        mkWordData "POT" None [(0, 2); (0, 1); (0, 0)]] !! i
       = Some (mkWordData "TOP" None [(0, 0); (0, 1); (0, 2)])
     ∧ ∀ j w, (j < i)%nat →
         [mkWordData "TOP" None [(0, 0); (0, 1); (0, 2)];
          mkWordData "POT" None [(0, 2); (0, 1); (0, 0)]] !! j = Some w →
         ¬ (foundBy w = None
            ∧ (positions w = [(0, 2); (0, 1); (0, 0)]
               ∨ rev (positions w) = [(0, 2); (0, 1); (0, 0)])).
Proof.
  apply (getSelectedWord_first
           [mkWordData "TOP" None [(0, 0); (0, 1); (0, 2)];
            mkWordData "POT" None [(0, 2); (0, 1); (0, 0)]]
           [(0, 2); (0, 1); (0, 0)]).
  reflexivity.
Defined.

(** ** [shuffleArray] *)

Lemma shuffleFrom_spec {A : Type} (random : nat → Q) (i : nat)
    (copy : list A) (n : nat) :
  unitInterval random → (i < length copy)%nat ∨ i = 0%nat →
  ∃ out, shuffleFrom random i copy n = Some (out, (n + i)%nat)
         ∧ out ≡ₚ copy.
Proof.
  intros Hu. revert copy n. induction i as [| i IH]; intros copy n Hi.
  - exists copy. cbn. by rewrite Nat.add_0_r.
  - destruct Hi as [Hi | ?]; [| done]. cbn [shuffleFrom].
    destruct (Hu n) as [H0 H1].
    pose proof (randomInt_range 0 (Z.of_nat (S i)) (random n) H0 H1) as Hj.
    unfold randomInt in Hj.
    replace (Z.of_nat (S i) - 0 + 1) with (Z.of_nat (S i) + 1) in Hj by lia.
    set (j := Qfloor (random n * inject_Z (Z.of_nat (S i) + 1))) in *.
    destruct (js_index_Some copy j) as [y Hy]; [lia |].
    destruct (lookup_lt_is_Some_2 copy (S i) Hi) as [x Hx].
    rewrite Hy, Hx. apply js_index_lookup in Hy as [_ Hy].
    destruct (IH (<[Z.to_nat j := x]> (<[S i := y]> copy)) (S n))
      as (out & Hout & Hperm).
    { left. rewrite !length_insert. lia. }
    exists out. split.
    + rewrite Hout. do 2 f_equal. lia.
    + rewrite Hperm. by apply Permutation_insert_swap.
Qed.

(** X5.  With draws in the unit interval [shuffleArray] returns a
    rearrangement of its argument, after one draw for each element but the
    first. *)
Theorem shuffleArray_permutation {A : Type} (random : nat → Q)
    (arr : list A) (n : nat) :
  unitInterval random →
  ∃ out, shuffleArray random arr n = Some (out, (n + (length arr - 1))%nat)
         ∧ out ≡ₚ arr ∧ length out = length arr.
Proof.
  intros Hu. unfold shuffleArray.
  destruct (shuffleFrom_spec random (length arr - 1) arr n Hu)
    as (out & Hout & Hperm); [lia |].
  exists out. split; [done |]. split; [done |]. by rewrite Hperm.
Qed.

Lemma shuffleArray_permutation_witness :
  ∃ out, shuffleArray (scripted (1 # 2)) ["CAT"; "DOG"; "SUN"] 3
         = Some (out, 5%nat)
         ∧ out ≡ₚ ["CAT"; "DOG"; "SUN"].
Proof.
  destruct (shuffleArray_permutation (scripted (1 # 2))
              ["CAT"; "DOG"; "SUN"] 3
              (unitInterval_scripted (1 # 2) ltac:(by vm_compute)
                 ltac:(by vm_compute)))
    as (out & Hout & Hperm & _).
  exists out. split; [exact Hout | exact Hperm].
Defined.

(** ** [generateGrid]: where the words lie *)

Lemma cellsOf_elem_2 (row col : Z) (dir : Z * Z) (i : Z) (n : nat) (j : Z) :
  0 <= j < Z.of_nat n →
  (row + dir.1 * (i + j), col + dir.2 * (i + j)) ∈ cellsOf row col dir i n.
Proof.
  revert i j. induction n as [| n IH]; intros i j Hj; [lia |].
  cbn [cellsOf]. destruct (decide (j = 0)) as [-> | Hne].
  - rewrite Z.add_0_r. apply list_elem_of_here.
  - apply list_elem_of_further.
    replace (i + j) with (i + 1 + (j - 1)) by lia. apply IH. lia.
Qed.

Lemma DIRECTIONS_unit (dir : Z * Z) :
  dir ∈ DIRECTIONS →
  unitStep dir ∧ (Z.abs dir.1 = 1 ∨ Z.abs dir.2 = 1).
Proof.
  unfold DIRECTIONS, unitStep. intros H.
  repeat (apply elem_of_cons in H as [-> | H]; [cbn; lia |]).
  by apply elem_of_nil in H.
Qed.

Lemma placeWords_wellPlaced (random : nat → Q) (size : nat)
    (ws : list string) g wd n g' wd' n' :
  square size g → Forall (wellPlaced size) wd →
  placeWords random size ws g wd n = Some (g', wd', n') →
  Forall (wellPlaced size) wd'.
Proof.
  revert g wd n. induction ws as [| w ws IH]; intros g wd n Hsq Hwd;
    cbn [placeWords].
  - by intros [= <- <- <-].
  - destruct (placeLoop _ _ _ _ _ _ _) as [[[[g1 wd1] n1] tries] |] eqn:Hp;
      [| discriminate].
    apply IH; [by eapply placeLoop_square |].
    apply placeLoop_outcome in Hp as (_ & _ & Hcase).
    destruct Hcase as [(k & ps & _ & Hv & _ & _ & ->) | (_ & _ & _ & ->)];
      [| done].
    apply Forall_app. split; [done |]. apply Forall_singleton.
    destruct (attempt_valid _ _ _ _ _ _ Hsq Hv)
      as (_ & Hnd & Hin & _ & dir & row & col & Hdir & ->).
    split; [done |]. split; [| done]. by exists dir, row, col.
Qed.

Lemma wellPlaced_length (size : nat) (w : WordData) :
  wellPlaced size w → (String.length (word w) <= size)%nat.
Proof.
  intros (_ & (dir & row & col & Hdir & Hps) & Hin & _).
  destruct (String.length (word w)) as [| m] eqn:Hlen; [lia |].
  rewrite Hps, Forall_forall in Hin.
  pose proof (Hin _ (cellsOf_elem_2 row col dir 0 (S m) 0 ltac:(lia)))
    as [Ha1 Ha2].
  pose proof (Hin _ (cellsOf_elem_2 row col dir 0 (S m) (Z.of_nat m)
                       ltac:(lia))) as [Hb1 Hb2].
  cbn [fst snd] in *.
  destruct (DIRECTIONS_unit dir Hdir) as [[Hd1 Hd2] Hone]. nia.
Qed.

(** X6.  Every entry of the word table that [generateGrid] returns is
    unclaimed and lies on a line: its cells are those met from an anchor by
    steps of one of the eight directions, one cell for each letter, all
    inside the grid and no cell twice.  If the upper-cased words are
    pairwise different, so are the words of the table. *)
Theorem generateGrid_placements (random : nat → Q) (size : nat)
    (ws : list string) (n : nat) grid wd n' :
  generateGrid random size ws n = Some (grid, wd, n') →
  Forall (wellPlaced size) wd
  ∧ (NoDup (map toUpperCase ws) → NoDup (map word wd)).
Proof.
  intros (g1 & n1 & Hp & _ & _)%generateGrid_inv. split.
  - eapply placeWords_wellPlaced; [apply square_replicate | | exact Hp].
    constructor.
  - destruct (placeWords_invariant _ _ _ _ _ _ _ _ _
                (square_replicate size) (Forall_nil_2 _) Hp)
      as (_ & _ & _ & placed & Hpl & Hsub & _).
    cbn [app] in Hpl. subst placed. intros Hnd. by eapply sublist_NoDup.
Qed.

Lemma generateGrid_placements_witness :
  wellPlaced 4 (mkWordData "CAT" None [(0, 0); (0, 1); (0, 2)]).
Proof.
  destruct (generateGrid_placements zeroOracle 4 ["cat"; "dog"] 0
              [["C"; "A"; "T"; "A"]; ["A"; "A"; "A"; "A"];
               ["A"; "A"; "A"; "A"]; ["A"; "A"; "A"; "A"]]
              [mkWordData "CAT" None [(0, 0); (0, 1); (0, 2)]] 316%nat
              ltac:(vm_compute; reflexivity)) as [Hall _].
  apply Forall_cons in Hall as [Hcat _]. exact Hcat.
Defined.

(** X7.  A word with more letters than the grid has rows is never placed:
    every word of the returned table has at most [size] letters. *)
Theorem generateGrid_drops_long_words (random : nat → Q) (size : nat)
    (ws : list string) (n : nat) grid wd n' :
  generateGrid random size ws n = Some (grid, wd, n') →
  ∀ w, w ∈ wd → (String.length (word w) <= size)%nat.
Proof.
  intros (g1 & n1 & Hp & _ & _)%generateGrid_inv w Hw.
  apply wellPlaced_length.
  assert (Forall (wellPlaced size) wd) as Hall.
  { eapply placeWords_wellPlaced; [apply square_replicate | | exact Hp].
    constructor. }
  rewrite Forall_forall in Hall. by apply Hall.
Qed.

Lemma generateGrid_drops_long_words_witness :
  (String.length
     (word (mkWordData "CAT" None [(0, 0); (0, 1); (0, 2)]%Z)) <= 4)%nat.
Proof.
  apply (generateGrid_drops_long_words zeroOracle 4 ["cat"; "elephant"] 0
           [["C"; "A"; "T"; "A"]; ["A"; "A"; "A"; "A"];
            ["A"; "A"; "A"; "A"]; ["A"; "A"; "A"; "A"]]
           [mkWordData "CAT" None [(0, 0); (0, 1); (0, 2)]] 316%nat).
  - vm_compute. reflexivity.
  - apply list_elem_of_here.
Defined.

(** ** Dragging over a placement *)

Lemma cellsOf_map (row col : Z) (dir : Z * Z) (n : nat) (i : Z) :
  cellsOf row col dir i n
  = map (fun j : nat => (row + dir.1 * (i + Z.of_nat j),
                         col + dir.2 * (i + Z.of_nat j))) (seq 0 n).
Proof.
  revert i. induction n as [| n IH]; intros i; [done |].
  cbn [cellsOf seq map]. rewrite Z.add_0_r. f_equal.
  rewrite IH, <- seq_shift, map_map. apply map_ext. intros j.
  f_equal; f_equal; lia.
Qed.

Lemma lineFrom_cellsOf (a : Cell) (dir : Z * Z) (n : nat) :
  lineFrom a dir n = cellsOf a.1 a.2 dir 0 (S n).
Proof. rewrite cellsOf_map. unfold lineFrom. by apply map_ext. Qed.

(** The line between the two ends of a placement is the placement. *)
Lemma getLine_ends (row col : Z) (dir : Z * Z) (len : nat) :
  dir ∈ DIRECTIONS → (1 <= len)%nat →
  getLine (row, col)
    (row + dir.1 * (Z.of_nat len - 1), col + dir.2 * (Z.of_nat len - 1))
  = Some (cellsOf row col dir 0 len).
Proof.
  intros Hdir Hlen. destruct (DIRECTIONS_unit dir Hdir) as [[Hd1 Hd2] Hone].
  destruct dir as [d1 d2]. cbn [fst snd] in *.
  assert (d1 = -1 ∨ d1 = 0 ∨ d1 = 1) as Hc1 by lia.
  assert (d2 = -1 ∨ d2 = 0 ∨ d2 = 1) as Hc2 by lia.
  set (a := (row, col)).
  set (b := (row + d1 * (Z.of_nat len - 1),
             col + d2 * (Z.of_nat len - 1))).
  assert (straightPair a b) as Hs.
  { unfold straightPair, a, b. cbn [fst snd].
    destruct Hc1 as [-> | [-> | ->]], Hc2 as [-> | [-> | ->]]; lia. }
  destruct (proj2 (getLine_Some_iff a b) Hs) as [l Hl]. rewrite Hl. f_equal.
  apply getLine_Some in Hl as ->. rewrite lineFrom_cellsOf.
  assert (stepsBetween a b = (len - 1)%nat) as ->.
  { unfold stepsBetween, a, b. cbn [fst snd].
    destruct Hc1 as [-> | [-> | ->]], Hc2 as [-> | [-> | ->]]; lia. }
  replace (S (len - 1)) with len by lia. cbn [fst snd a].
  destruct (decide (len = 1%nat)) as [-> | Hne].
  - cbn [cellsOf]. by rewrite !Z.mul_0_r.
  - assert (stepTowards a b = (d1, d2)) as ->; [| done].
    unfold stepTowards, a, b. cbn [fst snd]. f_equal.
    + replace (row + d1 * (Z.of_nat len - 1) - row)
        with (d1 * (Z.of_nat len - 1)) by lia.
      rewrite Z.sgn_mul, (Z.sgn_pos (Z.of_nat len - 1)) by lia.
      destruct (Z.sgn_spec d1) as [[? ->] | [[? ->] | [? ->]]]; lia.
    + replace (col + d2 * (Z.of_nat len - 1) - col)
        with (d2 * (Z.of_nat len - 1)) by lia.
      rewrite Z.sgn_mul, (Z.sgn_pos (Z.of_nat len - 1)) by lia.
      destruct (Z.sgn_spec d2) as [[? ->] | [[? ->] | [? ->]]]; lia.
Qed.

(** Press, move, release while playing. *)
Lemma press_move_release (random : nat → Q) (s : State) (a b : Cell)
    (line : list Cell) (wd : WordData) :
  gameState s = playing → getLine a b = Some line →
  (2 <= length line)%nat →
  getSelectedWord (wordList s) line = Some wd →
  let s' := run random s
              [CellMouseDown a.1 a.2; CellMouseEnter b.1 b.2; GridMouseUp] in
  gameState s' = animatingPlayer
  ∧ timeouts s' = timeouts s ++ [PlayerFound (word wd) (positions wd)]
  ∧ wordList s' = wordList s.
Proof.
  intros Hg Hline Hlen Hsel. cbn [run fold_left].
  rewrite (proj1 (step_grid_event random s Hg)).
  rewrite (handleCellMouseDown_playing _ _ s Hg).
  set (s1 := setSelected [(a.1, a.2)] s).
  assert (gameState s1 = playing) as Hg1 by done.
  rewrite (proj1 (proj2 (step_grid_event random s1 Hg1))).
  rewrite (handleCellMouseEnter_playing b.1 b.2 (a.1, a.2) [] s1 Hg1 eq_refl).
  replace (a.1, a.2) with a by (by destruct a).
  replace (b.1, b.2) with b by (by destruct b).
  rewrite Hline.
  set (s2 := setSelected line s1).
  assert (gameState s2 = playing) as Hg2 by done.
  rewrite (proj2 (proj2 (step_grid_event random s2 Hg2))).
  unfold handleCellMouseUp.
  rewrite bool_decide_eq_false_2 by (rewrite Hg2; auto).
  change (selected s2) with line. change (wordList s2) with (wordList s).
  destruct (Nat.ltb_spec (length line) 2) as [? | _]; [lia |].
  cbn [orb]. rewrite Hsel.
  apply getSelectedWord_Some in Hsel as (_ & Hnone & _).
  rewrite bool_decide_eq_true_2 by done. done.
Qed.

(** X8.  While playing, an unclaimed word of two letters or more that lies
    on a line of one of the eight directions is claimed by a drag from its
    first cell to its last, and as well by a drag from its last cell to its
    first: either way the release schedules the same claim, for the first
    unclaimed entry of the word list that has these cells, and the game
    holds for the player's animation. *)
Theorem drag_claims_placement (random : nat → Q) (s : State) (p : WordData)
    (row col : Z) (dir : Z * Z) (len : nat) :
  gameState s = playing → p ∈ wordList s → foundBy p = None →
  dir ∈ DIRECTIONS → (2 <= len)%nat →
  positions p = cellsOf row col dir 0 len →
  let first := (row, col) in
  let last := (row + dir.1 * (Z.of_nat len - 1),
               col + dir.2 * (Z.of_nat len - 1)) in
  ∃ wd,
    getSelectedWord (wordList s) (positions p) = Some wd
    ∧ (let s' := run random s
                   [CellMouseDown first.1 first.2;
                    CellMouseEnter last.1 last.2; GridMouseUp] in
       gameState s' = animatingPlayer
       ∧ timeouts s' = timeouts s ++ [PlayerFound (word wd) (positions wd)])
    ∧ (let s' := run random s
                   [CellMouseDown last.1 last.2;
                    CellMouseEnter first.1 first.2; GridMouseUp] in
       gameState s' = animatingPlayer
       ∧ timeouts s' = timeouts s ++ [PlayerFound (word wd) (positions wd)]).
Proof.
  intros Hg Hp Hnone Hdir Hlen Hps first last.
  destruct (proj2 (getSelectedWord_is_Some (wordList s) (positions p)))
    as [wd Hwd]; [exists p; auto |].
  exists wd. split; [done |].
  pose proof (getLine_ends row col dir len Hdir ltac:(lia)) as Hline.
  fold first last in Hline. rewrite <- Hps in Hline.
  assert (length (positions p) = len) as Hl
    by (rewrite Hps; apply cellsOf_length).
  split.
  - destruct (press_move_release random s first last (positions p) wd
                Hg Hline ltac:(lia) Hwd) as (H1 & H2 & _).
    by split.
  - pose proof (getLine_swap first last) as Hrev. rewrite Hline in Hrev.
    destruct (press_move_release random s last first (rev (positions p)) wd
                Hg Hrev) as (H1 & H2 & _).
    + rewrite length_rev. lia.
    + by rewrite getSelectedWord_rev.
    + by split.
Qed.

Lemma drag_claims_placement_witness :
  ∃ wd,
    getSelectedWord
      (wordList (run zeroOracle initialState [ClickStartGame]))
      [(0, 0); (0, 1); (0, 2)] = Some wd
    ∧ gameState
        (run zeroOracle (run zeroOracle initialState [ClickStartGame])
           [CellMouseDown 0 2; CellMouseEnter 0 0; GridMouseUp])
      = animatingPlayer.
Proof.
  destruct (drag_claims_placement zeroOracle
              (run zeroOracle initialState [ClickStartGame])
              (mkWordData "CAT" None [(0, 0); (0, 1); (0, 2)])
              0 0 (0, 1) 3) as (wd & Hwd & _ & Hback & _).
  - vm_compute. reflexivity.
  - vm_compute. apply list_elem_of_here.
  - reflexivity.
  - apply list_elem_of_here.
  - lia.
  - reflexivity.
  - exists wd. split; [exact Hwd | exact Hback].
Defined.

(** ** The component: what every event keeps *)

Lemma gameEndEffect_fields (s : State) :
  foundWords (gameEndEffect s) = foundWords s
  ∧ playerScore (gameEndEffect s) = playerScore s
  ∧ aiScore (gameEndEffect s) = aiScore s
  ∧ grid (gameEndEffect s) = grid s
  ∧ timeouts (gameEndEffect s) = timeouts s
  ∧ difficulty (gameEndEffect s) = difficulty s.
Proof. unfold gameEndEffect. by destruct (_ && _). Qed.

Lemma finishCheck_fields wl fw (s : State) :
  foundWords (finishCheck wl fw s) = foundWords s
  ∧ playerScore (finishCheck wl fw s) = playerScore s
  ∧ aiScore (finishCheck wl fw s) = aiScore s
  ∧ grid (finishCheck wl fw s) = grid s
  ∧ gameState (finishCheck wl fw s) = gameState s
  ∧ (intervalOn (finishCheck wl fw s) = true → intervalOn s = true).
Proof. unfold finishCheck. by destruct (_ || _). Qed.

(** Where the effects after a claim leave the component. *)
Lemma effects_gameState (s : State) :
  gameState s = playing →
  (gameState (gameEndEffect (aiEffect s)) = playing
   ∧ intervalOn (gameEndEffect (aiEffect s)) = true
   ∧ unfound (wordList s) ≠ [])
  ∨ (gameState (gameEndEffect (aiEffect s)) = completed
     ∧ intervalOn (gameEndEffect (aiEffect s)) = false
     ∧ unfound (wordList s) = []).
Proof.
  intros Hg. unfold gameEndEffect.
  change (gameState (aiEffect s)) with (gameState s).
  change (wordList (aiEffect s)) with (wordList s). rewrite Hg.
  rewrite bool_decide_eq_true_2 by done. cbn [andb].
  case_bool_decide as Hu.
  - right. split; [done |]. split; [done |]. by apply nil_length_inv.
  - left. cbn. rewrite Hg. split; [done |]. split; [done |].
    intros Hnil. by rewrite Hnil in Hu.
Qed.

(** What one event does to the log and the scores. *)
Lemma step_log (random : nat → Q) (s : State) (e : Event) :
  logChange s (step random s e).
Proof.
  destruct e; cbn [step].
  - destruct (_ || _); [| by apply log_same]. unfold startGame.
    destruct (generateGrid _ _ _ _) as [[[g wd] n] |]; [| by apply log_same].
    destruct (gameEndEffect_fields
                (aiEffect (mkState playing (difficulty s) g wd [] [] 0 0 []
                             false (intervalOn s) (timeouts s) n)))
      as (H1 & H2 & H3 & _).
    by apply log_reset.
  - destruct (bool_decide _); [| by apply log_same].
    destruct (bool_decide _); by apply log_same.
  - destruct (bool_decide _); by apply log_same.
  - destruct (bool_decide _); [| by apply log_same].
    unfold handleCellMouseDown. destruct (bool_decide _); by apply log_same.
  - destruct (bool_decide _); [| by apply log_same].
    unfold handleCellMouseEnter. destruct (_ || _); [by apply log_same |].
    destruct (selected s) as [| [? ?] ?]; [by apply log_same |].
    destruct (getLine _ _); by apply log_same.
  - destruct (bool_decide _); [| by apply log_same]. unfold handleCellMouseUp.
    destruct (_ || _); [by apply log_same |].
    destruct (getSelectedWord _ _) as [wd |]; [| by apply log_same].
    destruct (bool_decide _); by apply log_same.
  - destruct (bool_decide _); by apply log_same.
  - destruct (intervalOn s); [| by apply log_same]. unfold intervalTick.
    destruct (bool_decide _); [by apply log_same |].
    destruct (Qltb _ _).
    + destruct (_ <? _)%nat.
      * destruct (chooseWord _ _ _ _) as [[chosen |] n'];
          [| by apply log_same].
        match goal with
        | |- logChange _ (aiEffect (finishCheck ?wl ?fw ?s')) =>
            destruct (finishCheck_fields wl fw s') as (H1 & H2 & H3 & _)
        end.
        by apply log_same.
      * match goal with
        | |- logChange _ (finishCheck ?wl ?fw ?s') =>
            destruct (finishCheck_fields wl fw s') as (H1 & H2 & H3 & _)
        end.
        by apply log_same.
    + match goal with
      | |- logChange _ (finishCheck ?wl ?fw ?s') =>
          destruct (finishCheck_fields wl fw s') as (H1 & H2 & H3 & _)
      end.
      by apply log_same.
  - destruct (timeouts s !! k) as [[w ps | chosen |] |];
      [| | | by apply log_same]; cbn [runTimeout].
    + match goal with
      | |- logChange _ (gameEndEffect ?s') =>
          destruct (gameEndEffect_fields s') as (H1 & H2 & H3 & _)
      end.
      by apply (log_player _ _ w ps).
    + match goal with
      | |- logChange _ (gameEndEffect ?s') =>
          destruct (gameEndEffect_fields s') as (H1 & H2 & H3 & _)
      end.
      by apply (log_ai _ _ (word chosen) (positions chosen)).
    + destruct (bool_decide _); by apply log_same.
Qed.

Lemma countBy_snoc (f : Finder) (fw : list FoundWord) (e : FoundWord) :
  countBy f (fw ++ [e])
  = (countBy f fw + if bool_decide (fw_by e = f) then 1 else 0)%nat.
Proof.
  unfold countBy. rewrite filter_app, length_app. f_equal.
  case_bool_decide.
  - by rewrite filter_cons_True.
  - by rewrite filter_cons_False.
Qed.

(** X9.  In every state the component reaches, each score is the number of
    entries of the found-words log by that finder; so the two scores add up
    to the length of the log. *)
Theorem scores_count_log (random : nat → Q) (es : list Event) :
  let s := run random initialState es in
  playerScore s = countBy player (foundWords s)
  ∧ aiScore s = countBy ai (foundWords s)
  ∧ (playerScore s + aiScore s)%nat = length (foundWords s).
Proof.
  cbn zeta.
  assert (∀ s, playerScore s = countBy player (foundWords s)
               ∧ aiScore s = countBy ai (foundWords s)
               ∧ (playerScore s + aiScore s)%nat = length (foundWords s) →
          let s' := run random s es in
          playerScore s' = countBy player (foundWords s')
          ∧ aiScore s' = countBy ai (foundWords s')
          ∧ (playerScore s' + aiScore s')%nat = length (foundWords s'))
    as Hrun; [| by apply Hrun].
  induction es as [| e es IH]; intros s Hs; [done |].
  cbn [run fold_left]. apply IH. destruct Hs as (Hp & Ha & Hsum).
  destruct (step_log random s e) as [-> -> -> | -> -> -> | w ps -> -> ->
                                     | w ps -> -> ->].
  - done.
  - done.
  - rewrite !countBy_snoc, length_app. cbn [fw_by length].
    repeat case_bool_decide; try congruence; repeat split; lia.
  - rewrite !countBy_snoc, length_app. cbn [fw_by length].
    repeat case_bool_decide; try congruence; repeat split; lia.
Qed.

Lemma runtimeInv_quiet (s : State) :
  gameState s = setup ∨ gameState s = playing ∨ gameState s = completed →
  (intervalOn s = true → gameState s = playing) → runtimeInv s.
Proof.
  intros Hg Hi. split; [done |].
  split; intros Ha; rewrite Ha in Hg; by destruct Hg as [? | [? | ?]].
Qed.

Lemma runtimeInv_same (s s' : State) :
  gameState s' = gameState s → timeouts s' = timeouts s →
  intervalOn s' = intervalOn s → runtimeInv s → runtimeInv s'.
Proof. unfold runtimeInv. by intros -> -> ->. Qed.

Lemma timeouts_finishCheck wl fw (s : State) (t : Timeout) :
  t ∈ timeouts s → t ∈ timeouts (finishCheck wl fw s).
Proof.
  unfold finishCheck. destruct (_ || _); [| done]. cbn. intros H.
  apply elem_of_app. by left.
Qed.

Lemma step_runtimeInv (random : nat → Q) (s : State) (e : Event) :
  runtimeInv s → runtimeInv (step random s e).
Proof.
  intros Hinv. pose proof Hinv as (Hi & Hp & Ha).
  destruct e; cbn [step].
  - destruct (_ || _); [| done]. unfold startGame.
    destruct (generateGrid _ _ _ _) as [[[g wd] n] |]; [| done].
    match goal with
    | |- runtimeInv (gameEndEffect (aiEffect ?s')) =>
        destruct (effects_gameState s' eq_refl)
          as [(H1 & H2 & _) | (H1 & H2 & _)]
    end.
    + apply runtimeInv_quiet; [by right; left | done].
    + apply runtimeInv_quiet; [by right; right | by rewrite H2].
  - case_bool_decide as Hg; [| done]. case_bool_decide; [done |].
    apply runtimeInv_quiet; [by left |]. cbn. rewrite Hg.
    by intros ?%bool_decide_eq_true.
  - case_bool_decide as Hg; [| done].
    apply runtimeInv_quiet; [by left |]. cbn.
    by intros ?%bool_decide_eq_true.
  - destruct (bool_decide _); [| done]. unfold handleCellMouseDown.
    destruct (bool_decide _); [done |]. by apply (runtimeInv_same s).
  - destruct (bool_decide _); [| done]. unfold handleCellMouseEnter.
    destruct (_ || _); [done |].
    destruct (selected s) as [| [? ?] ?]; [done |].
    destruct (getLine _ _); [| done]. by apply (runtimeInv_same s).
  - destruct (bool_decide _); [| done]. unfold handleCellMouseUp.
    destruct (_ || _); [by apply (runtimeInv_same s) |].
    destruct (getSelectedWord _ _) as [wd |];
      [| by apply (runtimeInv_same s)].
    destruct (bool_decide _); [| by apply (runtimeInv_same s)].
    split; [| split]; cbn.
    + by intros ?%bool_decide_eq_true.
    + intros _. exists (word wd), (positions wd).
      apply elem_of_app. right. apply list_elem_of_here.
    + discriminate.
  - destruct (bool_decide _); [by apply (runtimeInv_same s) | done].
  - destruct (intervalOn s) eqn:Hon; [| done]. unfold intervalTick.
    case_bool_decide as Hg; [done |].
    assert (gameState s = playing) as Hplay by auto.
    assert (∀ wl fw n, runtimeInv (finishCheck wl fw (setDraws n s)))
      as Hidle.
    { intros wl fw n.
      destruct (finishCheck_fields wl fw (setDraws n s))
        as (_ & _ & _ & _ & Hgs & Hint).
      apply runtimeInv_quiet; [right; left; by rewrite Hgs |].
      intros _. by rewrite Hgs. }
    destruct (Qltb _ _); [| apply Hidle].
    destruct (_ <? _)%nat; [| apply Hidle].
    destruct (chooseWord _ _ _ _) as [[chosen |] n'];
      [| by apply (runtimeInv_same s)].
    match goal with
    | |- runtimeInv (aiEffect (finishCheck ?wl ?fw ?s')) =>
        destruct (finishCheck_fields wl fw s') as (_ & _ & _ & _ & Hgs & _);
        pose proof (timeouts_finishCheck wl fw s' (AiFound chosen)) as Hin
    end.
    split; [| split]; cbn.
    + rewrite Hgs. by intros ?%bool_decide_eq_true.
    + rewrite Hgs. discriminate.
    + intros _. exists chosen. apply Hin. cbn.
      apply elem_of_app. right. apply list_elem_of_here.
  - destruct (timeouts s !! k) as [[w ps | chosen |] |] eqn:Hk; [| | | done];
      cbn [runTimeout].
    + match goal with
      | |- runtimeInv (gameEndEffect (aiEffect ?s')) =>
          destruct (effects_gameState s' eq_refl)
            as [(H1 & H2 & _) | (H1 & H2 & _)]
      end.
      * apply runtimeInv_quiet; [by right; left | done].
      * apply runtimeInv_quiet; [by right; right | by rewrite H2].
    + match goal with
      | |- runtimeInv (gameEndEffect (aiEffect ?s')) =>
          destruct (effects_gameState s' eq_refl)
            as [(H1 & H2 & _) | (H1 & H2 & _)]
      end.
      * apply runtimeInv_quiet; [by right; left | done].
      * apply runtimeInv_quiet; [by right; right | by rewrite H2].
    + case_bool_decide as Hg; cbn in Hg.
      * apply runtimeInv_quiet; [by right; right | done].
      * apply runtimeInv_quiet; [by right; right |]. cbn.
        by intros ?%bool_decide_eq_true.
Qed.

Lemma run_runtimeInv (random : nat → Q) (es : list Event) (s : State) :
  runtimeInv s → runtimeInv (run random s es).
Proof.
  revert s. induction es as [| e es IH]; intros s Hs; [done |].
  cbn [run fold_left]. by apply IH, step_runtimeInv.
Qed.

Lemma runtimeInv_initial : runtimeInv initialState.
Proof. by apply runtimeInv_quiet; [left |]. Qed.

(** X10.  In every state the component reaches, the rival's interval is
    running only while the game is being played: it is cleared in the
    menu, during both animations and once the game is completed. *)
Theorem interval_only_while_playing (random : nat → Q) (es : list Event) :
  intervalOn (run random initialState es) = true →
  gameState (run random initialState es) = playing.
Proof.
  by destruct (run_runtimeInv random es initialState runtimeInv_initial)
    as [H _].
Qed.

Lemma interval_only_while_playing_witness :
  gameState (run zeroOracle initialState [ClickStartGame]) = playing.
Proof.
  apply (interval_only_while_playing zeroOracle [ClickStartGame]).
  vm_compute. reflexivity.
Defined.

(** X11.  The component never waits in an animation state for nothing:
    whenever it is in the player's animation a timeout that ends it with
    the player's claim is pending, and whenever it is in the rival's
    animation a timeout that ends it with the rival's claim is pending. *)
Theorem animation_has_timeout (random : nat → Q) (es : list Event) :
  (gameState (run random initialState es) = animatingPlayer →
   ∃ k w ps, timeouts (run random initialState es) !! k
             = Some (PlayerFound w ps)
     ∧ gameState (step random (run random initialState es) (TimeoutFires k))
       ≠ animatingPlayer)
  ∧ (gameState (run random initialState es) = animatingAI →
     ∃ k chosen, timeouts (run random initialState es) !! k
                 = Some (AiFound chosen)
       ∧ gameState (step random (run random initialState es)
                      (TimeoutFires k))
         ≠ animatingAI).
Proof.
  destruct (run_runtimeInv random es initialState runtimeInv_initial)
    as (_ & Hp & Ha).
  set (s := run random initialState es) in *. split.
  - intros Hg. destruct (Hp Hg) as (w & ps & [k Hk]%list_elem_of_lookup_1).
    exists k, w, ps. split; [done |]. cbn [step]. rewrite Hk.
    cbn [runTimeout].
    match goal with
    | |- gameState (gameEndEffect (aiEffect ?s')) ≠ _ =>
        destruct (effects_gameState s' eq_refl)
          as [(H1 & _) | (H1 & _)]; rewrite H1; discriminate
    end.
  - intros Hg. destruct (Ha Hg) as (ch & [k Hk]%list_elem_of_lookup_1).
    exists k, ch. split; [done |]. cbn [step]. rewrite Hk.
    cbn [runTimeout].
    match goal with
    | |- gameState (gameEndEffect (aiEffect ?s')) ≠ _ =>
        destruct (effects_gameState s' eq_refl)
          as [(H1 & _) | (H1 & _)]; rewrite H1; discriminate
    end.
Qed.

Lemma animation_has_timeout_witness :
  ∃ k chosen,
    timeouts (run zeroOracle initialState [ClickStartGame; IntervalTick])
      !! k = Some (AiFound chosen).
Proof.
  destruct (proj2 (animation_has_timeout zeroOracle
                     [ClickStartGame; IntervalTick]))
    as (k & chosen & Hk & _).
  - vm_compute. reflexivity.
  - exists k, chosen. exact Hk.
Defined.

(** ** The rival *)

Lemma head_insertByLength (x : WordData) (l : list WordData) :
  head (insertByLength x l)
  = match head l with
    | Some y => if (String.length (word x) <? String.length (word y))%nat
                then Some y else Some x
    | None => Some x
    end.
Proof.
  destruct l as [| y l]; cbn [insertByLength head]; [done |].
  by destruct (_ <? _)%nat.
Qed.

Lemma head_sortByLengthDesc (l : list WordData) (x : WordData) :
  head (sortByLengthDesc l) = Some x → firstLongest x l.
Proof.
  revert x. induction l as [| a l IH]; intros x; [done |].
  unfold sortByLengthDesc in *. cbn [foldr]. rewrite head_insertByLength.
  destruct (head (foldr insertByLength [] l)) as [h |] eqn:Hh.
  - destruct (IH h eq_refl) as (i & Hi & Hmax & Hfirst).
    destruct (Nat.ltb_spec (String.length (word a)) (String.length (word h)))
      as [Hlt | Hge]; intros [= <-].
    + exists (S i). split; [done |]. split.
      * intros y [-> | Hy]%elem_of_cons; [lia | by apply Hmax].
      * intros [| j] y Hj Hy.
        -- cbn in Hy. by injection Hy as <-.
        -- apply (Hfirst j); [lia | done].
    + exists 0%nat. split; [done |]. split.
      * intros y [-> | Hy]%elem_of_cons; [lia |].
        pose proof (Hmax y Hy). lia.
      * intros j y Hj. lia.
  - intros [= <-]. destruct l as [| b l].
    + exists 0%nat. split; [done |]. split.
      * intros y [-> | Hy]%elem_of_cons; [lia | by apply elem_of_nil in Hy].
      * intros j y Hj. lia.
    + cbn [foldr] in Hh. rewrite head_insertByLength in Hh.
      destruct (head _); [destruct (_ <? _)%nat |]; discriminate.
Qed.

Lemma chooseWord_hard (random : nat → Q)
    (candidates : list WordData) (n : nat) :
  candidates ≠ [] → Qltb (random n) (6 # 10) = true →
  ∃ x, chooseWord random Hard candidates n = (Some x, S n)
       ∧ firstLongest x candidates.
Proof.
  intros Hne Hq. unfold chooseWord.
  rewrite bool_decide_eq_true_2 by done. rewrite Hq.
  destruct (head (sortByLengthDesc candidates)) as [x |] eqn:Hx.
  - exists x. split; [done |]. by apply head_sortByLengthDesc.
  - exfalso. destruct candidates as [| a l]; [done |].
    unfold sortByLengthDesc in Hx. cbn [foldr] in Hx.
    rewrite head_insertByLength in Hx.
    destruct (head _); [destruct (_ <? _)%nat |]; discriminate.
Qed.

(** X12.  On Hard, when the second draw is below 0.6, the rival takes the
    longest of the unclaimed words, and of several of that length the one
    that comes first in the word list; this costs no further draw. *)
Theorem chooseWord_hard_longest (random : nat → Q)
    (candidates : list WordData) (n : nat) :
  candidates ≠ [] → Qltb (random n) (6 # 10) = true →
  ∃ x, chooseWord random Hard candidates n = (Some x, S n)
       ∧ firstLongest x candidates.
Proof. apply chooseWord_hard. Qed.

Lemma chooseWord_hard_longest_witness :
  ∃ x, chooseWord zeroOracle Hard
         [mkWordData "THEORY" None []; mkWordData "ALGORITHM" None [];
          mkWordData "SYNTHESIS" None []] 0
       = (Some x, 1%nat)
       ∧ firstLongest x
           [mkWordData "THEORY" None []; mkWordData "ALGORITHM" None [];
            mkWordData "SYNTHESIS" None []].
Proof.
  apply (chooseWord_hard_longest zeroOracle
           [mkWordData "THEORY" None []; mkWordData "ALGORITHM" None [];
            mkWordData "SYNTHESIS" None []] 0).
  - discriminate.
  - reflexivity.
Defined.

Lemma chooseWord_total (random : nat → Q) (dif : Difficulty)
    (candidates : list WordData) (n : nat) :
  unitInterval random → candidates ≠ [] →
  ∃ chosen n', chooseWord random dif candidates n = (Some chosen, n')
               ∧ chosen ∈ candidates.
Proof.
  intros Hu Hne.
  assert (∀ k, ∃ x, js_index candidates
                      (randomInt 0 (Z.of_nat (length candidates) - 1)
                         (random k)) = Some x ∧ x ∈ candidates) as Hidx.
  { intros k. destruct (Hu k) as [H0 H1].
    assert (0 < Z.of_nat (length candidates)) as Hlen
      by (destruct candidates; [done | cbn; lia]).
    pose proof (randomInt_range 0 (Z.of_nat (length candidates) - 1)
                  (random k) H0 H1 ltac:(lia)) as Hr.
    destruct (js_index_Some candidates
                (randomInt 0 (Z.of_nat (length candidates) - 1) (random k)))
      as [x Hx]; [lia |].
    exists x. split; [done |]. apply js_index_lookup in Hx as [_ Hx].
    by eapply list_elem_of_lookup_2. }
  unfold chooseWord. case_bool_decide.
  - destruct (Qltb _ _) eqn:Hq.
    + destruct (chooseWord_hard random candidates n Hne Hq)
        as (x & Hx & (i & Hi & _)).
      unfold chooseWord in Hx. rewrite bool_decide_eq_true_2, Hq in Hx by done.
      exists x, (S n). split; [done |]. by eapply list_elem_of_lookup_2.
    + destruct (Hidx (S n)) as (x & -> & Hx). eauto.
  - destruct (Hidx n) as (x & -> & Hx). eauto.
Qed.

(** X13.  A tick of the interval whose draw is not below the skill of the
    difficulty claims nothing: it schedules no claim, and the word list,
    the log, the scores, the selection and the game state are as before.
    It costs one draw. *)
Theorem intervalTick_idle (random : nat → Q) (s : State) :
  gameState s = playing →
  Qltb (random (draws s)) (aiSkill (DIFFICULTY_CONFIG (difficulty s)))
    = false →
  let s' := intervalTick random s in
  omap claimWord (timeouts s') = omap claimWord (timeouts s)
  ∧ wordList s' = wordList s ∧ foundWords s' = foundWords s
  ∧ playerScore s' = playerScore s ∧ aiScore s' = aiScore s
  ∧ selected s' = selected s ∧ gameState s' = playing
  ∧ draws s' = S (draws s).
Proof.
  intros Hg Hq. unfold intervalTick.
  rewrite bool_decide_eq_false_2 by (rewrite Hg; auto). rewrite Hq.
  unfold finishCheck. destruct (_ || _); cbn; rewrite ?omap_app; cbn;
    rewrite ?app_nil_r; done.
Qed.

Lemma intervalTick_idle_witness :
  wordList (intervalTick (scripted (1 # 2))
              (run (scripted (1 # 2)) initialState [ClickStartGame]))
  = wordList (run (scripted (1 # 2)) initialState [ClickStartGame]).
Proof.
  apply (intervalTick_idle (scripted (1 # 2))
           (run (scripted (1 # 2)) initialState [ClickStartGame])).
  - vm_compute. reflexivity.
  - vm_compute. reflexivity.
Defined.

(** X14.  A tick of the interval whose draw is below the skill, while a
    word is unclaimed and the draws are in the unit interval, schedules the
    claim of one unclaimed entry of the word list, highlights its cells,
    holds the game for the rival's animation and stops the interval; the
    word list, the log and the scores change only when the timeout
    runs. *)
Theorem intervalTick_claims (random : nat → Q) (s : State) :
  unitInterval random → gameState s = playing →
  Qltb (random (draws s)) (aiSkill (DIFFICULTY_CONFIG (difficulty s)))
    = true →
  unfound (wordList s) ≠ [] →
  let s' := intervalTick random s in
  ∃ chosen,
    chosen ∈ wordList s ∧ foundBy chosen = None
    ∧ AiFound chosen ∈ timeouts s'
    ∧ omap claimWord (timeouts s')
      = omap claimWord (timeouts s) ++ [word chosen]
    ∧ aiHighlight s' = positions chosen
    ∧ gameState s' = animatingAI ∧ intervalOn s' = false
    ∧ wordList s' = wordList s ∧ foundWords s' = foundWords s
    ∧ playerScore s' = playerScore s ∧ aiScore s' = aiScore s.
Proof.
  intros Hu Hg Hq Hne. unfold intervalTick.
  rewrite bool_decide_eq_false_2 by (rewrite Hg; auto). rewrite Hq.
  destruct (Nat.ltb_spec 0 (length (unfound (wordList s)))) as [_ | Hlen];
    [| destruct (unfound (wordList s)); [done | cbn in Hlen; lia]].
  destruct (chooseWord_total random (difficulty s) (unfound (wordList s))
              (S (draws s)) Hu Hne) as (chosen & n' & Hch & Hin).
  rewrite Hch. exists chosen.
  apply unfound_unclaimed in Hin as [Hin Hnone].
  split; [done |]. split; [done |].
  unfold finishCheck. destruct (_ || _); cbn; rewrite ?omap_app; cbn;
    rewrite ?app_nil_r.
  - split; [| done]. rewrite !elem_of_app. left. right.
    apply list_elem_of_here.
  - split; [| done]. rewrite !elem_of_app. right. apply list_elem_of_here.
Qed.

Lemma intervalTick_claims_witness :
  ∃ chosen,
    chosen ∈ wordList (run zeroOracle initialState [ClickStartGame])
    ∧ gameState (intervalTick zeroOracle
                   (run zeroOracle initialState [ClickStartGame]))
      = animatingAI.
Proof.
  destruct (intervalTick_claims zeroOracle
              (run zeroOracle initialState [ClickStartGame])
              unitInterval_zero)
    as (chosen & Hin & _ & _ & _ & _ & Hg & _).
  - vm_compute. reflexivity.
  - vm_compute. reflexivity.
  - vm_compute. discriminate.
  - exists chosen. split; [exact Hin | exact Hg].
Defined.

(** ** One game *)

(** X15.  In a game started while no claim was waiting in a timeout, a
    claimed entry of the word list is never changed again, whatever the
    events that follow, as long as no new game is started: it keeps its
    place, its word, its cells and its finder. *)
Theorem claimed_entries_final (random : nat → Q) (dif : Difficulty)
    (s0 : State) (es1 es2 : list Event) :
  unitInterval random → noClaimPending s0 →
  Forall (fun e => e ≠ ClickStartGame) es1 →
  Forall (fun e => e ≠ ClickStartGame) es2 →
  let s1 := run random (startGame random dif s0) es1 in
  let s2 := run random s1 es2 in
  ∀ i wd, wordList s1 !! i = Some wd → foundBy wd ≠ None →
          wordList s2 !! i = Some wd.
Proof.
  intros Hu Hnone Hes1 Hes2 s1 s2.
  pose proof (startGame_gameInv random dif s0 Hu Hnone) as Hinv0.
  destruct (claims_final_within_game random es1 _ Hinv0 Hes1) as [Hinv1 _].
  by destruct (claims_final_within_game random es2 _ Hinv1 Hes2) as [_ Hk].
Qed.

Lemma claimed_entries_final_witness :
  wordList
    (run zeroOracle
       (run zeroOracle (startGame zeroOracle Easy initialState)
          [IntervalTick; TimeoutFires 0])
       [ClickMainMenu; GridMouseUp]) !! 0%nat
  = Some (mkWordData "CAT" (Some ai) [(0, 0); (0, 1); (0, 2)]).
Proof.
  apply (claimed_entries_final zeroOracle Easy initialState
           [IntervalTick; TimeoutFires 0] [ClickMainMenu; GridMouseUp]
           unitInterval_zero eq_refl).
  - repeat (apply Forall_cons_2; [discriminate |]). apply Forall_nil_2.
  - repeat (apply Forall_cons_2; [discriminate |]). apply Forall_nil_2.
  - vm_compute. reflexivity.
  - discriminate.
Defined.

(** X16.  When the timeout of a claim runs, every entry of the claimed
    word is marked with the finder, the claim is appended to the log, the
    finder's score goes up by one; the game is completed at once, with the
    interval stopped, if no entry is left unclaimed, and otherwise it is
    played on with the interval started afresh. *)
Theorem claim_timeout_effect (s : State) (t : Timeout) (w : string)
    (by_ : Finder) (ps : list Cell) :
  (t = PlayerFound w ps ∧ by_ = player)
  ∨ (∃ chosen, t = AiFound chosen ∧ w = word chosen ∧ ps = positions chosen
               ∧ by_ = ai) →
  let s' := runTimeout t s in
  wordList s' = markFound w by_ (wordList s)
  ∧ foundWords s' = foundWords s ++ [mkFoundWord w by_ ps]
  ∧ (playerScore s' + aiScore s' = S (playerScore s + aiScore s))%nat
  ∧ (gameState s' = completed ∧ intervalOn s' = false
     ∧ unfound (wordList s') = []
     ∨ gameState s' = playing ∧ intervalOn s' = true
       ∧ unfound (wordList s') ≠ []).
Proof.
  intros [[-> ->] | (chosen & -> & -> & -> & ->)]; cbn [runTimeout].
  - match goal with
    | |- context [gameEndEffect (aiEffect ?s')] =>
        destruct (effects_gameState s' eq_refl)
          as [(H1 & H2 & H3) | (H1 & H2 & H3)];
        destruct (gameEndEffect_fields (aiEffect s')) as (F1 & F2 & F3 & _);
        pose proof (wordList_gameEndEffect (aiEffect s')) as F4
    end; cbn zeta; rewrite F1, F2, F3, F4; cbn;
      (split; [done |]); (split; [done |]); (split; [lia |]).
    + right. by rewrite H1, H2.
    + left. by rewrite H1, H2.
  - match goal with
    | |- context [gameEndEffect (aiEffect ?s')] =>
        destruct (effects_gameState s' eq_refl)
          as [(H1 & H2 & H3) | (H1 & H2 & H3)];
        destruct (gameEndEffect_fields (aiEffect s')) as (F1 & F2 & F3 & _);
        pose proof (wordList_gameEndEffect (aiEffect s')) as F4
    end; cbn zeta; rewrite F1, F2, F3, F4; cbn;
      (split; [done |]); (split; [done |]); (split; [lia |]).
    + right. by rewrite H1, H2.
    + left. by rewrite H1, H2.
Qed.

Lemma claim_timeout_effect_witness :
  gameState
    (runTimeout (PlayerFound "CAT" [(0, 0); (0, 1); (0, 2)])
       (mkState animatingPlayer Easy []
          [mkWordData "CAT" None [(0, 0); (0, 1); (0, 2)]]
          [(0, 0); (0, 1); (0, 2)] [] 0 0 [] false false [] 0))
  = completed.
Proof.
  destruct (claim_timeout_effect
              (mkState animatingPlayer Easy []
                 [mkWordData "CAT" None [(0, 0); (0, 1); (0, 2)]]
                 [(0, 0); (0, 1); (0, 2)] [] 0 0 [] false false [] 0)
              (PlayerFound "CAT" [(0, 0); (0, 1); (0, 2)]) "CAT" player
              [(0, 0); (0, 1); (0, 2)])
    as (_ & _ & _ & [(Hg & _) | (_ & _ & Hu)]).
  - left. split; reflexivity.
  - exact Hg.
  - exfalso. apply Hu. reflexivity.
Defined.

(** X17.  With draws in the unit interval, starting a game puts in place
    the grid and the word table of [generateGrid] for the difficulty, all
    entries unclaimed, and empties the selection, the log and both scores;
    the pending timeouts are left as they are.  The game is played, with
    the interval running, unless no word was placed: then it is completed
    at once. *)
Theorem startGame_resets (random : nat → Q) (dif : Difficulty) (s : State) :
  unitInterval random →
  let s' := startGame random dif s in
  ∃ g wd n,
    generateGrid random (gridSize (DIFFICULTY_CONFIG dif))
      (words (DIFFICULTY_CONFIG dif)) (draws s) = Some (g, wd, n)
    ∧ grid s' = g ∧ wordList s' = wd
    ∧ Forall (fun w => foundBy w = None) wd
    ∧ selected s' = [] ∧ foundWords s' = []
    ∧ playerScore s' = 0%nat ∧ aiScore s' = 0%nat
    ∧ timeouts s' = timeouts s
    ∧ (wd = [] ∧ gameState s' = completed ∧ intervalOn s' = false
       ∨ wd ≠ [] ∧ gameState s' = playing ∧ intervalOn s' = true).
Proof.
  intros Hu. cbn zeta. unfold startGame.
  destruct (generateGrid_total random (gridSize (DIFFICULTY_CONFIG dif))
              (words (DIFFICULTY_CONFIG dif)) (draws s) Hu)
    as (g & wd & n & Hgen).
  rewrite Hgen. exists g, wd, n. split; [done |].
  assert (Forall (fun w => foundBy w = None) wd) as Hall.
  { apply generateGrid_inv in Hgen as (g1 & n1 & Hp & _ & _).
    destruct (placeWords_invariant _ _ _ _ _ _ _ _ _
                (square_replicate _) (Forall_nil_2 _) Hp)
      as (_ & _ & _ & placed & Hpl & _ & Hall).
    cbn [app] in Hpl. by subst placed. }
  assert (unfound wd = wd) as Hunf.
  { unfold unfound. clear -Hall. induction Hall as [| w l Hw Hl IH]; [done |].
    by rewrite filter_cons_True, IH. }
  match goal with
  | |- context [gameEndEffect (aiEffect ?s')] =>
      destruct (effects_gameState s' eq_refl)
        as [(H1 & H2 & H3) | (H1 & H2 & H3)];
      destruct (gameEndEffect_fields (aiEffect s'))
        as (F1 & F2 & F3 & F4 & F5 & _);
      pose proof (wordList_gameEndEffect (aiEffect s')) as F6;
      pose proof (selected_gameEndEffect (aiEffect s')) as F7
  end; rewrite F1, F2, F3, F4, F5, F6, F7, H1, H2; cbn;
    cbn [wordList] in H3; rewrite Hunf in H3;
    repeat (split; [done |]).
  - by right.
  - by left.
Qed.

Lemma startGame_resets_witness :
  ∃ g wd n,
    generateGrid zeroOracle 8 (words (DIFFICULTY_CONFIG Easy)) 0
      = Some (g, wd, n)
    ∧ wordList (startGame zeroOracle Easy initialState) = wd.
Proof.
  destruct (startGame_resets zeroOracle Easy initialState unitInterval_zero)
    as (g & wd & n & Hgen & _ & Hwl & _).
  exists g, wd, n. split; [exact Hgen | exact Hwl].
Defined.

Lemma markFound_shape (w : string) (by_ : Finder) (wl : list WordData) :
  map word (markFound w by_ wl) = map word wl
  ∧ map positions (markFound w by_ wl) = map positions wl.
Proof.
  unfold markFound. rewrite !map_map.
  split; apply map_ext; intros wd; by case_bool_decide.
Qed.

Lemma sameGame_of (s s' : State) :
  grid s' = grid s →
  wordList s' = wordList s
  ∨ (∃ w by_, wordList s' = markFound w by_ (wordList s)) →
  foundWords s' = foundWords s
  ∨ (∃ e, foundWords s' = foundWords s ++ [e]) →
  sameGame s s'.
Proof.
  intros Hg Hwl Hfw. split; [done |].
  assert (map word (wordList s') = map word (wordList s)
          ∧ map positions (wordList s') = map positions (wordList s))
    as [H1 H2].
  { destruct Hwl as [-> | (w & by_ & ->)]; [done | apply markFound_shape]. }
  split; [done |]. split; [done |].
  destruct Hfw as [-> | (e & ->)]; [done | by apply prefix_app_r].
Qed.

Lemma sameGame_trans (s1 s2 s3 : State) :
  sameGame s1 s2 → sameGame s2 s3 → sameGame s1 s3.
Proof.
  intros (A1 & A2 & A3 & A4) (B1 & B2 & B3 & B4).
  split; [congruence |]. split; [congruence |]. split; [congruence |].
  by etrans.
Qed.

Lemma step_sameGame (random : nat → Q) (s : State) (e : Event) :
  e ≠ ClickStartGame → sameGame s (step random s e).
Proof.
  intros He.
  assert (sameGame s s) as Hrefl by (apply sameGame_of; auto).
  destruct e; cbn [step]; try done.
  - destruct (bool_decide _); [| done]. by destruct (bool_decide _).
  - by destruct (bool_decide _).
  - destruct (bool_decide _); [| done]. unfold handleCellMouseDown.
    by destruct (bool_decide _).
  - destruct (bool_decide _); [| done]. unfold handleCellMouseEnter.
    destruct (_ || _); [done |].
    destruct (selected s) as [| [? ?] ?]; [done |]. by destruct (getLine _ _).
  - destruct (bool_decide _); [| done]. unfold handleCellMouseUp.
    destruct (_ || _); [done |].
    destruct (getSelectedWord _ _) as [wd |]; [| done].
    by destruct (bool_decide _).
  - by destruct (bool_decide _).
  - destruct (intervalOn s); [| done]. unfold intervalTick.
    destruct (bool_decide _); [done |].
    assert (∀ wl fw s', grid s' = grid s → wordList s' = wordList s →
                        foundWords s' = foundWords s →
                        sameGame s (finishCheck wl fw s')) as Hfc.
    { intros wl fw s' H1 H2 H3.
      destruct (finishCheck_fields wl fw s') as (F1 & _ & _ & F4 & _).
      apply sameGame_of; [congruence | | left; congruence].
      left. by rewrite wordList_finishCheck. }
    destruct (Qltb _ _); [| by apply Hfc].
    destruct (_ <? _)%nat; [| by apply Hfc].
    destruct (chooseWord _ _ _ _) as [[chosen |] n']; [| done].
    match goal with
    | |- sameGame s (aiEffect (finishCheck ?wl ?fw ?s')) =>
        pose proof (Hfc wl fw s' eq_refl eq_refl eq_refl)
    end.
    done.
  - destruct (timeouts s !! k) as [[w ps | chosen |] |]; [| | | done];
      cbn [runTimeout].
    + match goal with
      | |- sameGame s (gameEndEffect ?s') =>
          destruct (gameEndEffect_fields s') as (F1 & _ & _ & F4 & _);
          pose proof (wordList_gameEndEffect s') as F6
      end.
      apply sameGame_of; [by rewrite F4 | | ].
      * right. exists w, player. by rewrite F6.
      * right. eexists. by rewrite F1.
    + match goal with
      | |- sameGame s (gameEndEffect ?s') =>
          destruct (gameEndEffect_fields s') as (F1 & _ & _ & F4 & _);
          pose proof (wordList_gameEndEffect s') as F6
      end.
      apply sameGame_of; [by rewrite F4 | | ].
      * right. exists (word chosen), ai. by rewrite F6.
      * right. eexists. by rewrite F1.
    + by destruct (bool_decide _).
Qed.

(** X18.  Nothing but the start of a new game touches the grid or the
    words and cells of the word list, and the log only grows: after any
    events that do not start a game the grid is the same, the word list has
    the same words at the same cells in the same order, and the log begins
    with the log there was. *)
Theorem game_data_fixed (random : nat → Q) (s : State) (es : list Event) :
  Forall (fun e => e ≠ ClickStartGame) es →
  sameGame s (run random s es).
Proof.
  revert s. induction es as [| e es IH]; intros s Hes.
  - apply sameGame_of; auto.
  - apply Forall_cons in Hes as [He Hes]. cbn [run fold_left].
    eapply sameGame_trans; [by apply step_sameGame | by apply IH].
Qed.

Lemma game_data_fixed_witness :
  sameGame (run zeroOracle initialState [ClickStartGame])
    (run zeroOracle (run zeroOracle initialState [ClickStartGame])
       [IntervalTick; TimeoutFires 0; ClickMainMenu]).
Proof.
  apply (game_data_fixed zeroOracle
           (run zeroOracle initialState [ClickStartGame])
           [IntervalTick; TimeoutFires 0; ClickMainMenu]).
  repeat (apply Forall_cons_2; [discriminate |]). apply Forall_nil_2.
Defined.

(** ** [getCellStatus] and the scoreboard *)

Lemma findsCell_spec (ps : list Cell) (r c : Z) :
  findsCell ps r c = true ↔ (r, c) ∈ ps.
Proof.
  unfold findsCell. induction ps as [| [r' c'] ps IH]; cbn [existsb fst snd].
  - split; [discriminate | by intros ?%elem_of_nil].
  - rewrite orb_true_iff, andb_true_iff, !Z.eqb_eq, IH, elem_of_cons.
    split; (intros [H | H]; [left | by right]).
    + destruct H as [-> ->]. done.
    + by injection H as -> ->.
Qed.

Lemma foundBy_fold (r c : Z) (fw : list FoundWord) (init : option Finder) :
  fold_left
    (fun foundBy e =>
       if findsCell (fw_positions e) r c then Some (fw_by e) else foundBy)
    fw init
  = match last (filter (fun e => (r, c) ∈ fw_positions e) fw) with
    | Some e => Some (fw_by e)
    | None => init
    end.
Proof.
  revert init. induction fw as [| e fw IH]; intros init; [done |].
  cbn [fold_left]. rewrite IH.
  destruct (findsCell (fw_positions e) r c) eqn:Hf.
  - apply findsCell_spec in Hf. rewrite filter_cons_True by done.
    rewrite last_cons. by destruct (last _).
  - rewrite filter_cons_False; [done |].
    rewrite <- findsCell_spec, Hf. discriminate.
Qed.

(** X19.  [getCellStatus] reports a cell as selected exactly when it is in
    the selection, as highlighted for the rival exactly when it is in the
    rival's highlight, and as found by the finder of the last entry of the
    log whose cells contain it, or by nobody when no entry does. *)
Theorem getCellStatus_spec (r c : Z) (s : State) :
  (cs_isSelecting (getCellStatus r c s) = true ↔ (r, c) ∈ selected s)
  ∧ (cs_isAIHighlight (getCellStatus r c s) = true ↔ (r, c) ∈ aiHighlight s)
  ∧ cs_foundBy (getCellStatus r c s)
    = fw_by <$> last (filter (fun e => (r, c) ∈ fw_positions e)
                        (foundWords s)).
Proof.
  split; [apply findsCell_spec |]. split; [apply findsCell_spec |].
  cbn [getCellStatus cs_foundBy]. rewrite foundBy_fold.
  by destruct (last _).
Qed.




Lemma arraysEqual_true_iff_witness :
  arraysEqual [(0, 0); (0, 1)] [(0, 0); (0, 1)] = true.
Proof.
  apply (proj2 (arraysEqual_true_iff [(0, 0); (0, 1)] [(0, 0); (0, 1)])).
  reflexivity.
Defined.

Lemma getCellStatus_spec_witness :
  cs_isSelecting
    (getCellStatus 0 1 (setSelected [(0, 0); (0, 1)] initialState)) = true.
Proof.
  apply (proj2 (proj1 (getCellStatus_spec 0 1
                         (setSelected [(0, 0); (0, 1)] initialState)))).
  apply list_elem_of_further, list_elem_of_here.
Defined.
